(** * LAWGORITHM: clause segmentation and rule-based risk scoring

    A shallow embedding of [backend/services/segmentation_service.py] and
    [backend/services/risk_service.py].

    Modelling conventions.
    - A Python [str] is a [list ascii] ([Text.str]); a character is a code point below
      256 and the character classes ([str.isspace], [str.lower], the
      regex classes [\s], [\d], [\w]) are Python's on that range.
    - A Python [float] is an exact rational ([Q]); integer counts are
      [nat], offsets are [Z] ([str.find] returns -1 when nothing is found).
    - The [re] module is embedded as a backtracking matcher over the
      pattern syntax the two services use; the pattern tables below are
      the source's pattern strings, parsed by [Re.parse].
    - A dict iterated in insertion order is an association list. *)

From Stdlib Require Import List Ascii String ZArith QArith Qround Bool Lia Lqa Arith.
Import ListNotations.

Set Implicit Arguments.

(* ================================================================== *)
(** ** Python [str] operations *)
(* ================================================================== *)

Module Text.

Definition str := list ascii.

(** A string literal of the source. *)
Definition py (s : string) : str := list_ascii_of_string s.

Definition code (c : ascii) : nat := nat_of_ascii c.

Definition between (lo n hi : nat) : bool := (lo <=? n)%nat && (n <=? hi)%nat.

(** [str.isspace] on one character. *)
Definition isspace (c : ascii) : bool :=
  let n := code c in
  between 9 n 13 || between 28 n 32 || (n =? 133)%nat || (n =? 160)%nat.

(** Decimal digits, the regex class [\d]. *)
Definition isdecimal (c : ascii) : bool := between 48 (code c) 57.

(** [str.isalnum] on one character. *)
Definition isalnum (c : ascii) : bool :=
  let n := code c in
  between 48 n 57 || between 65 n 90 || between 97 n 122
  || (n =? 170)%nat || between 178 n 179 || (n =? 181)%nat
  || between 185 n 186 || between 188 n 190
  || between 192 n 214 || between 216 n 246 || between 248 n 255.

(** The regex class [\w]. *)
Definition isword (c : ascii) : bool := isalnum c || (code c =? 95)%nat.

Definition has_upper (c : ascii) : bool :=
  let n := code c in
  between 65 n 90 || between 192 n 214 || between 216 n 222.

Definition has_lower (c : ascii) : bool :=
  let n := code c in
  between 97 n 122 || between 224 n 246 || between 248 n 254.

Definition lower_char (c : ascii) : ascii :=
  if has_upper c then ascii_of_nat (code c + 32) else c.

Definition upper_char (c : ascii) : ascii :=
  if has_lower c then ascii_of_nat (code c - 32) else c.

(** [s.lower()] on a text whose characters are all below U+0100: one
    character for each character.  On other texts [str.lower] can
    change the length (U+0130 becomes two characters) and
    [re.IGNORECASE] accepts letters whose lower-case form is not equal
    (U+0130 for [i]); those texts are outside this embedding, and what
    is proved about letter case below is about texts inside it. *)
Definition lower (s : str) : str := map lower_char s.

Fixpoint lstrip (s : str) : str :=
  match s with
  | c :: s' => if isspace c then lstrip s' else s
  | [] => []
  end.

Definition rstrip (s : str) : str := rev (lstrip (rev s)).

(** [s.strip()] *)
Definition strip (s : str) : str := rstrip (lstrip s).

(** [not s.strip()] *)
Definition blank (s : str) : bool :=
  match strip s with [] => true | _ => false end.

(** [len(s.split())]: the number of maximal runs of non-space characters.
    [inw] tells whether the scan is inside a word. *)
Fixpoint count_words (inw : bool) (s : str) : nat :=
  match s with
  | [] => 0
  | c :: s' =>
      if isspace c then count_words false s'
      else if inw then count_words true s' else S (count_words true s')
  end.

Definition word_count (s : str) : nat := count_words false s.

Fixpoint starts_with (p s : str) : bool :=
  match p, s with
  | [], _ => true
  | a :: p', b :: s' => Ascii.eqb a b && starts_with p' s'
  | _ :: _, [] => false
  end.

(** [s.find(sub)] counted from offset [i]. *)
Fixpoint find_from (sub s : str) (i : Z) : Z :=
  if starts_with sub s then i
  else match s with
       | [] => (-1)%Z
       | _ :: s' => find_from sub s' (i + 1)%Z
       end.

Definition find (s sub : str) : Z := find_from sub s 0%Z.

(** [sub in s] *)
Fixpoint contains (sub s : str) : bool :=
  starts_with sub s ||
  match s with
  | [] => false
  | _ :: s' => contains sub s'
  end.

(** [s.endswith(suffix)] *)
Definition endswith (s suffix : str) : bool := starts_with (rev suffix) (rev s).

(** [sep.join(l)] *)
Fixpoint join (sep : str) (l : list str) : str :=
  match l with
  | [] => []
  | [x] => x
  | x :: l' => x ++ sep ++ join sep l'
  end.

Definition len (s : str) : Z := Z.of_nat (List.length s).

End Text.

Import Text.

(* ================================================================== *)
(** ** The [re] module: patterns, parser, backtracking matcher *)
(* ================================================================== *)

Module Re.

(** One member of a character set. *)
Inductive item : Type :=
| IChar (c : ascii)          (* a literal character *)
| IRange (lo hi : ascii)     (* [lo-hi] *)
| ISpace                     (* \s *)
| IDigit                     (* \d *)
| IWord.                     (* \w *)

(** The pattern syntax used by the services.  [Sym] consumes one
    character of a set; [Star] and [Opt] are greedy; [Alt] tries its left
    branch first. *)
Inductive regex : Type :=
| Eps
| Sym (its : list item)
| Bol                        (* ^ *)
| WordB                      (* \b *)
| Seq (a b : regex)
| Alt (a b : regex)
| Star (a : regex)
| Opt (a : regex).

Definition Plus (a : regex) : regex := Seq a (Star a).

(** [re.IGNORECASE] and [re.MULTILINE]. *)
Record flags : Type := Flags { ignorecase : bool; multiline : bool }.

Definition NOFLAGS := Flags false false.
Definition IGNORECASE := Flags true false.
Definition IGNORECASE_MULTILINE := Flags true true.

(** *** Parser for pattern strings *)

Definition esc_item (c : ascii) : item :=
  if Ascii.eqb c "s" then ISpace
  else if Ascii.eqb c "d" then IDigit
  else if Ascii.eqb c "w" then IWord
  else if Ascii.eqb c "n" then IChar "010"
  else IChar c.

(** The body of a bracketed set, up to the closing bracket. *)
Fixpoint parse_set (s : str) (acc : list item) : option (list item * str) :=
  match s with
  | [] => None
  | "]"%char :: rest => Some (rev acc, rest)
  | "\"%char :: c :: rest => parse_set rest (esc_item c :: acc)
  | "\"%char :: [] => None
  | lo :: "-"%char :: hi :: rest =>
      if Ascii.eqb hi "]" then Some (rev (IChar "-" :: IChar lo :: acc), rest)
      else parse_set rest (IRange lo hi :: acc)
  | c :: rest => parse_set rest (IChar c :: acc)
  end.

(** A postfix quantifier, when one follows. *)
Definition parse_quant (a : regex) (s : str) : regex * str :=
  match s with
  | "*"%char :: rest => (Star a, rest)
  | "+"%char :: rest => (Plus a, rest)
  | "?"%char :: rest => (Opt a, rest)
  | _ => (a, s)
  end.

(** Recursive descent, bounded by [fuel]; [None] on anything outside the
    supported syntax. *)
Fixpoint parse_alt (fuel : nat) (s : str) : option (regex * str) :=
  match fuel with
  | O => None
  | S f =>
      match parse_seq f s with
      | Some (a, "|"%char :: rest) =>
          match parse_alt f rest with
          | Some (b, rest') => Some (Alt a b, rest')
          | None => None
          end
      | other => other
      end
  end
with parse_seq (fuel : nat) (s : str) : option (regex * str) :=
  match fuel with
  | O => None
  | S f =>
      match s with
      | [] => Some (Eps, s)
      | "|"%char :: _ => Some (Eps, s)
      | ")"%char :: _ => Some (Eps, s)
      | _ =>
          match parse_atom f s with
          | Some (a, rest) =>
              let (q, rest') := parse_quant a rest in
              match parse_seq f rest' with
              | Some (Eps, rest'') => Some (q, rest'')
              | Some (b, rest'') => Some (Seq q b, rest'')
              | None => None
              end
          | None => None
          end
      end
  end
with parse_atom (fuel : nat) (s : str) : option (regex * str) :=
  match fuel with
  | O => None
  | S f =>
      match s with
      | "("%char :: "?"%char :: ":"%char :: rest =>
          match parse_alt f rest with
          | Some (a, ")"%char :: rest') => Some (a, rest')
          | _ => None
          end
      | "["%char :: rest =>
          match parse_set rest [] with
          | Some (its, rest') => Some (Sym its, rest')
          | None => None
          end
      | "\"%char :: "b"%char :: rest => Some (WordB, rest)
      | "\"%char :: c :: rest => Some (Sym [esc_item c], rest)
      | "^"%char :: rest => Some (Bol, rest)
      | "("%char :: _ | "."%char :: _ | "$"%char :: _ | "{"%char :: _
      | "*"%char :: _ | "+"%char :: _ | "?"%char :: _ | "\"%char :: _ => None
      | c :: rest => Some (Sym [IChar c], rest)
      | [] => None
      end
  end.

Definition parse (pattern : string) : option regex :=
  let s := py pattern in
  match parse_alt (3 * List.length s + 3) s with
  | Some (r, []) => Some r
  | _ => None
  end.

(** A pattern that fails everywhere, for a string that does not parse. *)
Definition Never : regex := Sym [].

(** [re.compile(pattern)] *)
Definition compile (pattern : string) : regex :=
  match parse pattern with Some r => r | None => Never end.

(** *** Matcher *)

Definition item_ok (it : item) (c : ascii) : bool :=
  match it with
  | IChar a => Ascii.eqb a c
  | IRange lo hi => between (code lo) (code c) (code hi)
  | ISpace => isspace c
  | IDigit => isdecimal c
  | IWord => isword c
  end.

(** Under IGNORECASE a set accepts a character when it accepts one of its
    case variants. *)
Definition sym_ok (fl : flags) (its : list item) (c : ascii) : bool :=
  existsb (fun it =>
    item_ok it c
    || (ignorecase fl && (item_ok it (lower_char c) || item_ok it (upper_char c))))
    its.

Definition word_at (o : option ascii) : bool :=
  match o with Some c => isword c | None => false end.

Definition at_bol (fl : flags) (prev : option ascii) : bool :=
  match prev with
  | None => true
  | Some c => multiline fl && Ascii.eqb c "010"
  end.

Section Matcher.
Variable fl : flags.
Variable R : Type.

(** [rmatch r prev s k]: match [r] at a position whose preceding
    character is [prev] and whose remaining input is [s], then hand the
    position reached to the continuation [k]; branches are explored in
    the order of the backtracking engine, and the first success wins. *)
Fixpoint rmatch (r : regex) (prev : option ascii) (s : str)
    (k : option ascii -> str -> option R) {struct r} : option R :=
  match r with
  | Eps => k prev s
  | Sym its =>
      match s with
      | c :: s' => if sym_ok fl its c then k (Some c) s' else None
      | [] => None
      end
  | Bol => if at_bol fl prev then k prev s else None
  | WordB => if xorb (word_at prev) (word_at (hd_error s)) then k prev s else None
  | Seq a b => rmatch a prev s (fun p' s' => rmatch b p' s' k)
  | Alt a b =>
      match rmatch a prev s k with
      | Some x => Some x
      | None => rmatch b prev s k
      end
  | Opt a =>
      match rmatch a prev s k with
      | Some x => Some x
      | None => k prev s
      end
  | Star a =>
      (fix loop (n : nat) (p : option ascii) (s0 : str) {struct n} : option R :=
         match n with
         | O => k p s0
         | S n' =>
             match rmatch a p s0 (fun p' s' =>
                     if (List.length s' <? List.length s0)%nat
                     then loop n' p' s' else None) with
             | Some x => Some x
             | None => k p s0
             end
         end) (List.length s) prev s
  end.

End Matcher.

(** The position after the first match found at the given position. *)
Definition match_here (fl : flags) (r : regex) (prev : option ascii) (s : str)
  : option (option ascii * str) :=
  rmatch fl r prev s (fun p' s' => Some (p', s')).

(** [pattern.match(s)] as a truth value. *)
Definition re_match (fl : flags) (r : regex) (s : str) : bool :=
  match match_here fl r None s with Some _ => true | None => false end.

Fixpoint search_from (fl : flags) (r : regex) (prev : option ascii) (s : str) : bool :=
  match match_here fl r prev s with
  | Some _ => true
  | None =>
      match s with
      | [] => false
      | c :: s' => search_from fl r (Some c) s'
      end
  end.

(** [re.search(pattern, s)] as a truth value. *)
Definition re_search (fl : flags) (r : regex) (s : str) : bool :=
  search_from fl r None s.

(** The non-overlapping matches scanned left to right; after an empty
    match the scan moves on by one character. *)
Fixpoint count_from (fl : flags) (r : regex) (fuel : nat)
    (prev : option ascii) (s : str) : nat :=
  match fuel with
  | O => 0
  | S f =>
      match match_here fl r prev s with
      | Some (p', s') =>
          if (List.length s' <? List.length s)%nat then S (count_from fl r f p' s')
          else match s with
               | [] => 1
               | c :: t => S (count_from fl r f (Some c) t)
               end
      | None =>
          match s with
          | [] => 0
          | c :: t => count_from fl r f (Some c) t
          end
      end
  end.

(** [len(pattern.findall(s))] *)
Definition findall_count (fl : flags) (r : regex) (s : str) : nat :=
  count_from fl r (S (List.length s)) None s.

(** The pieces between the non-empty matches, with the rest of the
    input last; [cur] is the piece being read, reversed. *)
Fixpoint split_from (fl : flags) (r : regex) (fuel : nat)
    (prev : option ascii) (s : str) (cur : str) : list str :=
  match fuel with
  | O => [rev cur ++ s]
  | S f =>
      match s with
      | [] => [rev cur]
      | c :: t =>
          match match_here fl r prev s with
          | Some (p', s') =>
              if (List.length s' <? List.length s)%nat
              then rev cur :: split_from fl r f p' s' []
              else split_from fl r f (Some c) t (c :: cur)
          | None => split_from fl r f (Some c) t (c :: cur)
          end
      end
  end.

(** [re.split(pattern, s)] *)
Definition re_split (fl : flags) (r : regex) (s : str) : list str :=
  split_from fl r (S (List.length s)) None s [].

End Re.

Import Re.

(* ================================================================== *)
(** ** Numbers *)
(* ================================================================== *)

Module Num.

Definition Qnat (n : nat) : Q := inject_Z (Z.of_nat n).

Definition Qltb (a b : Q) : bool :=
  match a ?= b with Lt => true | _ => false end.

(** [a >= b] *)
Definition Qgeb (a b : Q) : bool := Qle_bool b a.

(** Python's [min(a, b)]: [a] unless [b] is strictly smaller. *)
Definition py_min (a b : Q) : Q := if Qltb b a then b else a.

(** [sum(1 for x in xs if cond(x))] *)
Definition sum_ones {A : Type} (cond : A -> bool) (xs : list A) : nat :=
  list_sum (map (fun _ => 1%nat) (filter cond xs)).

End Num.

Import Num.

(* ================================================================== *)
(** ** segmentation_service.py *)
(* ================================================================== *)

Module Segmentation.

Inductive clause_type : Type :=
| definition | obligation | prohibition | condition | termination
| liability | payment | confidentiality | general | unknown.

Scheme Equality for clause_type.

(** The dict built for each clause. *)
Record clause : Type := Clause {
  id : Z;
  text : str;
  type : clause_type;
  start_index : Z;
  end_index : Z;
  confidence : Q
}.

Definition clause_patterns : list string := [
  "(?:^|\n)\s*(?:Article|Section|Clause|Paragraph)\s+\d+[\.\)\:]\s*";
  "(?:^|\n)\s*\d+[\.\)]\s*";
  "(?:^|\n)\s*[a-z]\)\s*";
  "(?:^|\n)\s*\([a-z]\)\s*";
  "(?:^|\n)\s*[ivx]+\)\s*";
  "(?:^|\n)\s*\([ivx]+\)\s*";
  "(?:^|\n)\s*WHEREAS\s+";
  "(?:^|\n)\s*NOW\s+THEREFORE\s+";
  "(?:^|\n)\s*IN\s+WITNESS\s+WHEREOF\s+";
  "(?:^|\n)\s*THEREFORE\s+";
  "(?:^|\n)\s*FURTHERMORE\s+";
  "(?:^|\n)\s*MOREOVER\s+";
  "(?:^|\n)\s*HOWEVER\s+";
  "(?:^|\n)\s*NOTWITHSTANDING\s+";
  "(?:^|\n)\s*SUBJECT\s+TO\s+";
  "(?:^|\n)\s*PROVIDED\s+THAT\s+";
  "(?:^|\n)\s*IN\s+THE\s+EVENT\s+THAT\s+";
  "(?:^|\n)\s*IN\s+CASE\s+OF\s+";
  "(?:^|\n)\s*IF\s+";
  "(?:^|\n)\s*UNLESS\s+";
  "(?:^|\n)\s*EXCEPT\s+";
  "(?:^|\n)\s*NOTWITHSTANDING\s+"
]%string.

(** Compiled with [re.IGNORECASE | re.MULTILINE]. *)
Definition compiled_patterns : list regex := map compile clause_patterns.

Definition _split_into_sentences (text : str) : list str :=
  let sentences := re_split NOFLAGS (compile "[.!?]+") text in
  map strip (filter (fun s => negb (blank s)) sentences).

Definition _is_clause_start (sentence : str) : bool :=
  existsb (fun pattern => re_match IGNORECASE_MULTILINE pattern sentence)
          compiled_patterns.

Definition type_patterns : list (clause_type * list string) := [
  (definition, [
     "\b(?:means?|shall mean|refers to|is defined as)\b";
     "\b(?:for the purposes? of|in this agreement)\b" ]);
  (obligation, [
     "\b(?:shall|must|will|agree to|undertake to)\b";
     "\b(?:responsible for|liable for|bound to)\b" ]);
  (prohibition, [
     "\b(?:shall not|must not|will not|cannot|may not)\b";
     "\b(?:prohibited|forbidden|restricted)\b" ]);
  (condition, [
     "\b(?:if|unless|provided that|subject to)\b";
     "\b(?:in the event that|in case of)\b" ]);
  (termination, [
     "\b(?:terminate|end|expire|cease)\b";
     "\b(?:breach|default|violation)\b" ]);
  (liability, [
     "\b(?:liability|damages|indemnify|hold harmless)\b";
     "\b(?:responsible|accountable|liable)\b" ]);
  (payment, [
     "\b(?:payment|fee|cost|expense|charge)\b";
     "\b(?:due|payable|remit|transfer)\b" ]);
  (confidentiality, [
     "\b(?:confidential|proprietary|secret|private)\b";
     "\b(?:disclose|reveal|share|divulge)\b" ])
]%string.

(** The loop over [type_patterns.items()]: the first group, in insertion
    order, one of whose patterns is found. *)
Fixpoint first_type (groups : list (clause_type * list string)) (clause_lower : str)
  : clause_type :=
  match groups with
  | [] => general
  | (clause_type, patterns) :: rest =>
      if existsb (fun pattern => re_search NOFLAGS (compile pattern) clause_lower)
                 patterns
      then clause_type
      else first_type rest clause_lower
  end.

Definition _classify_clause_type (clause_text : str) : clause_type :=
  let clause_lower := lower clause_text in
  first_type type_patterns clause_lower.

Definition legal_keywords : list string := [
  "shall"; "must"; "will"; "agree"; "party"; "contract"; "agreement";
  "liability"; "damages"; "breach"; "terminate"; "confidential";
  "payment"; "fee"; "obligation"; "right"; "duty"; "responsibility"
]%string.

Definition _calculate_confidence (clause_text : str) : Q :=
  let confidence := 0.5 in
  let clause_lower := lower clause_text in
  let keyword_count :=
    sum_ones (fun keyword => contains (py keyword) clause_lower) legal_keywords in
  let confidence := confidence + py_min 0.3 (Qnat keyword_count * 0.05) in
  let confidence :=
    if (100 <? len clause_text)%Z then confidence + 0.1
    else if (50 <? len clause_text)%Z then confidence + 0.05
    else confidence in
  let confidence :=
    if existsb (fun suffix => endswith clause_text (py suffix)) ["."; "!"; "?"]%string
    then confidence + 0.1 else confidence in
  py_min 1.0 confidence.

(** The dict appended when a clause is closed. *)
Definition make_clause (clause_id : Z) (current_clause : str) (start : Z) : clause :=
  {| id := clause_id;
     text := strip current_clause;
     type := _classify_clause_type current_clause;
     start_index := start;
     end_index := start + len current_clause;
     confidence := _calculate_confidence current_clause |}.

(** The local variables of [_segment_text] carried round its loop. *)
Record loop_state : Type := Loop {
  clauses : list clause;
  current_clause : str;
  clause_id : Z;
  cur_start_index : Z
}.

(** One iteration of the loop over the sentences of [text]. *)
Definition segment_step (text : str) (st : loop_state) (sentence : str) : loop_state :=
  if _is_clause_start sentence then
    let st' :=
      if negb (blank (current_clause st)) then
        {| clauses := clauses st ++
                      [make_clause (clause_id st) (current_clause st) (cur_start_index st)];
           current_clause := current_clause st;
           clause_id := clause_id st + 1;
           cur_start_index := cur_start_index st |}
      else st in
    {| clauses := clauses st';
       current_clause := sentence;
       clause_id := clause_id st';
       cur_start_index := find text sentence |}
  else
    {| clauses := clauses st;
       current_clause := current_clause st ++ py " " ++ sentence;
       clause_id := clause_id st;
       cur_start_index := cur_start_index st |}.

Definition loop_init : loop_state :=
  {| clauses := []; current_clause := []; clause_id := 1; cur_start_index := 0 |}.

Definition _segment_text (text : str) : list clause :=
  let sentences := _split_into_sentences text in
  let st := fold_left (segment_step text) sentences loop_init in
  let clauses :=
    if negb (blank (current_clause st)) then
      clauses st ++ [make_clause (clause_id st) (current_clause st) (cur_start_index st)]
    else clauses st in
  match clauses with
  | [] =>
      [ {| id := 1; text := text; type := general;
           start_index := 0; end_index := len text; confidence := 0.5 |} ]
  | _ => clauses
  end.

(** How the call run in the executor ended. *)
Inductive outcome : Type := Returned | Raised.

(** [segment_clauses]; [o] tells whether the executor call raised, in
    which case the handler answers with one whole-document clause. *)
Definition segment_clauses (o : outcome) (text : str) : list clause :=
  if blank text then []
  else match o with
       | Returned => _segment_text text
       | Raised =>
           [ {| id := 1; text := text; type := unknown;
                start_index := 0; end_index := len text; confidence := 0.1 |} ]
       end.

End Segmentation.

Import Segmentation.

(* ================================================================== *)
(** ** risk_service.py *)
(* ================================================================== *)

Module Risk.

(** The keys of [risk_patterns] and the values of ["risk_level"]. *)
Inductive level : Type := high | medium | low.

(** The dict built for each clause by the scorer. *)
Record assessment : Type := Assessment {
  clause_id : Z;
  risk_score : Q;
  risk_level : level;
  color : str;
  risk_factors : list str;
  explanation : str
}.

(** One entry of [risk_patterns]. *)
Record group : Type := Group { patterns : list string; weight : Q }.

Definition risk_patterns : list (level * group) := [
  (high, {| patterns := [
       "\b(?:unlimited|unrestricted|absolute)\s+(?:liability|responsibility)\b";
       "\b(?:indemnify|hold harmless)\s+(?:against|for)\s+(?:all|any|every)\b";
       "\b(?:without\s+limitation|without\s+restriction)\b";
       "\b(?:consequential|punitive|special)\s+damages\b";
       "\b(?:automatic|immediate)\s+(?:termination|cancellation)\b";
       "\b(?:penalty|fine)\s+(?:of|in\s+the\s+amount\s+of)\s+\$?\d+";
       "\b(?:breach|violation)\s+(?:shall|will)\s+(?:result\s+in|constitute)\b";
       "\b(?:irrevocable|permanent|final)\b";
       "\b(?:waive|waiver)\s+(?:all|any)\s+(?:rights?|claims?|defenses?)\b";
       "\b(?:exclusive|sole)\s+(?:remedy|recourse)\b" ]%string;
     weight := 0.8 |});
  (medium, {| patterns := [
       "\b(?:reasonable|limited)\s+(?:liability|responsibility)\b";
       "\b(?:terminate|end|cease)\s+(?:upon|in\s+case\s+of)\b";
       "\b(?:breach|default|violation)\s+(?:of|under)\b";
       "\b(?:notice|notification)\s+(?:of|regarding)\b";
       "\b(?:remedy|recourse)\s+(?:for|against)\b";
       "\b(?:damages?|losses?)\s+(?:arising\s+from|resulting\s+from)\b";
       "\b(?:confidential|proprietary)\s+(?:information|data)\b";
       "\b(?:payment|fee)\s+(?:due|payable)\s+(?:within|by)\b";
       "\b(?:subject\s+to|conditioned\s+upon)\b";
       "\b(?:provided\s+that|as\s+long\s+as)\b" ]%string;
     weight := 0.5 |});
  (low, {| patterns := [
       "\b(?:may|might|could)\s+(?:be|have|include)\b";
       "\b(?:reasonable|good\s+faith)\s+(?:efforts?|attempts?)\b";
       "\b(?:best\s+efforts?|reasonable\s+care)\b";
       "\b(?:subject\s+to\s+availability|as\s+available)\b";
       "\b(?:at\s+the\s+discretion\s+of|in\s+the\s+opinion\s+of)\b";
       "\b(?:unless\s+otherwise\s+specified|except\s+as\s+noted)\b";
       "\b(?:generally|typically|usually)\b";
       "\b(?:approximately|about|around)\b";
       "\b(?:if\s+possible|when\s+feasible)\b";
       "\b(?:reasonable\s+time|appropriate\s+period)\b" ]%string;
     weight := 0.2 |})
].

(** [compiled_patterns[risk_level]], compiled with [re.IGNORECASE]. *)
Definition compiled_patterns (data : group) : list regex :=
  map compile (patterns data).

(** The inner loop: the matches of one group's patterns, added up. *)
Definition count_matches (pats : list regex) (clause_lower : str) : nat :=
  fold_left (fun matches pattern =>
               (matches + findall_count IGNORECASE pattern clause_lower)%nat)
            pats 0%nat.

(** One iteration of the loop over [risk_patterns.items()], on the pair
    [(total_score, total_weight)]. *)
Definition score_step (clause_text clause_lower : str)
    (acc : Q * Q) (entry : level * group) : Q * Q :=
  let '(total_score, total_weight) := acc in
  let data := snd entry in
  let matches := count_matches (compiled_patterns data) clause_lower in
  if (0 <? matches)%nat then
    let normalized_matches :=
      Qnat matches / Qnat (Nat.max 1 (word_count clause_text)) in
    (total_score + normalized_matches * weight data, total_weight + weight data)
  else acc.

(** [(total_score, total_weight)] when the loop over the groups ends. *)
Definition pattern_totals (clause_text : str) : Q * Q :=
  fold_left (score_step clause_text (lower clause_text)) risk_patterns (0.0, 0.0).

Definition negation_words : list string :=
  ["not"; "no"; "never"; "none"; "neither"; "nor"; "without"; "unless"]%string.

Definition uncertainty_words : list string :=
  ["may"; "might"; "could"; "possibly"; "potentially"; "uncertain"]%string.

Definition time_words : list string :=
  ["immediately"; "urgent"; "asap"; "promptly"; "without delay"]%string.

Definition _calculate_additional_risk_factors (clause_text : str) : Q :=
  let additional_risk := 0.0 in
  let clause_lower := lower clause_text in
  let additional_risk :=
    if (200 <? len clause_text)%Z then additional_risk + 0.1
    else if (100 <? len clause_text)%Z then additional_risk + 0.05
    else additional_risk in
  let negation_count :=
    sum_ones (fun word => contains (py word) clause_lower) negation_words in
  let additional_risk := additional_risk + py_min 0.2 (Qnat negation_count * 0.05) in
  let uncertainty_count :=
    sum_ones (fun word => contains (py word) clause_lower) uncertainty_words in
  let additional_risk := additional_risk + py_min 0.15 (Qnat uncertainty_count * 0.03) in
  let time_count :=
    sum_ones (fun word => contains (py word) clause_lower) time_words in
  let additional_risk := additional_risk + py_min 0.1 (Qnat time_count * 0.05) in
  additional_risk.

Definition _analyze_clause_risk (clause_text : str) : Q :=
  if blank clause_text then 0.0
  else
    let '(total_score, total_weight) := pattern_totals clause_text in
    let additional_risk := _calculate_additional_risk_factors clause_text in
    let total_score := total_score + additional_risk in
    let normalized_score :=
      if Qltb 0 total_weight then py_min 1.0 (total_score / total_weight)
      else additional_risk in
    normalized_score.

Definition risk_checks : list (string * string) := [
  ("Unlimited Liability", "\b(?:unlimited|unrestricted)\s+(?:liability|responsibility)\b");
  ("Automatic Termination", "\b(?:automatic|immediate)\s+(?:termination|cancellation)\b");
  ("Penalty Clauses", "\b(?:penalty|fine)\s+(?:of|in\s+the\s+amount\s+of)\s+\$?\d+");
  ("Indemnification", "\b(?:indemnify|hold harmless)\b");
  ("Waiver of Rights", "\b(?:waive|waiver)\s+(?:all|any)\s+(?:rights?|claims?)\b");
  ("Consequential Damages", "\b(?:consequential|punitive|special)\s+damages\b");
  ("Irrevocable Terms", "\b(?:irrevocable|permanent|final)\b");
  ("Exclusive Remedy", "\b(?:exclusive|sole)\s+(?:remedy|recourse)\b");
  ("Confidentiality Breach", "\b(?:confidential|proprietary)\s+(?:information|data)\b");
  ("Payment Default", "\b(?:payment|fee)\s+(?:due|payable)\s+(?:within|by)\b")
]%string.

Definition _identify_risk_factors (clause_text : str) : list str :=
  let clause_lower := lower clause_text in
  map (fun check => py (fst check))
      (filter (fun check => re_search NOFLAGS (compile (snd check)) clause_lower)
              risk_checks).

Definition _generate_risk_explanation (risk_level : level) (risk_factors : list str) : str :=
  let base_explanation :=
    match risk_level with
    | high => py "This clause contains high-risk elements that could significantly impact your rights or obligations."
    | medium => py "This clause contains moderate-risk elements that should be carefully reviewed."
    | low => py "This clause appears to have low-risk elements, but should still be reviewed."
    end in
  match risk_factors with
  | [] => base_explanation
  | _ =>
      let factors_text := join (py ", ") risk_factors in
      base_explanation ++ py " Identified risk factors: " ++ factors_text ++ py "."
  end.

(** The threshold chain of [_calculate_risks]: level and colour are set
    together in each branch. *)
Definition level_and_color (risk_score : Q) : level * str :=
  if Qgeb risk_score 0.7 then (high, py "#ff4444")
  else if Qgeb risk_score 0.4 then (medium, py "#ffaa00")
  else (low, py "#44aa44").

(** The body of the loop of [_calculate_risks]. *)
Definition assess (c : clause) : assessment :=
  let clause_text := text c in
  let clause_id := id c in
  let risk_score := _analyze_clause_risk clause_text in
  let '(risk_level, color) := level_and_color risk_score in
  let risk_factors := _identify_risk_factors clause_text in
  {| clause_id := clause_id;
     risk_score := risk_score;
     risk_level := risk_level;
     color := color;
     risk_factors := risk_factors;
     explanation := _generate_risk_explanation risk_level risk_factors |}.

Definition _calculate_risks (clauses : list clause) : list assessment :=
  map assess clauses.

(** *** The fallback *)

(** The state of the [random] module: the values its next calls of
    [random.random()] return, each in the interval from 0 to 1. *)
Definition rng : Type := nat -> Q.

(** [random.uniform(a, b)] *)
Definition uniform (a b : Q) (g : rng) : Q * rng :=
  (a + (b - a) * g 0%nat, fun n => g (S n)).

(** [round(x, 2)], ties to the even neighbour. *)
Definition round2 (x : Q) : Q :=
  let y := x * 100 in
  let f := Qfloor y in
  let n := match (y - inject_Z f) ?= 0.5 with
           | Lt => f
           | Gt => (f + 1)%Z
           | Eq => if Z.even f then f else (f + 1)%Z
           end in
  inject_Z n / 100.

(** The threshold chain of the fallback, which also picks the factors. *)
Definition mock_level (risk_score : Q) : level * str * list str :=
  if Qgeb risk_score 0.7 then
    (high, py "#ff4444", [py "Unlimited Liability"; py "Automatic Termination"])
  else if Qgeb risk_score 0.4 then
    (medium, py "#ffaa00", [py "Payment Default"; py "Confidentiality Breach"])
  else (low, py "#44aa44", [py "Standard Terms"]).

Fixpoint _generate_mock_risk_scores (g : rng) (clauses : list clause)
  : list assessment * rng :=
  match clauses with
  | [] => ([], g)
  | c :: rest =>
      let clause_id := id c in
      let (risk_score, g1) := uniform 0.1 0.9 g in
      let '(risk_level, color, factors) := mock_level risk_score in
      let a := {| clause_id := clause_id;
                  risk_score := round2 risk_score;
                  risk_level := risk_level;
                  color := color;
                  risk_factors := factors;
                  explanation := _generate_risk_explanation risk_level factors |} in
      let (mock_scores, g2) := _generate_mock_risk_scores g1 rest in
      (a :: mock_scores, g2)
  end.

(** [calculate_risk_scores]; [o] tells whether the executor call raised,
    in which case the handler answers with the mock scores. *)
Definition calculate_risk_scores (o : outcome) (g : rng) (clauses : list clause)
  : list assessment * rng :=
  match o with
  | Returned => (_calculate_risks clauses, g)
  | Raised => _generate_mock_risk_scores g clauses
  end.

End Risk.

Import Risk.

(* ================================================================== *)
(** ** The analysis of one document (main_full.py) *)
(* ================================================================== *)

Module Pipeline.

(** Segmentation, then risk scoring of the clauses it returned. *)
Definition analyze (o_seg o_risk : outcome) (g : rng) (text : str)
  : list clause * list assessment * rng :=
  let clauses := segment_clauses o_seg text in
  let (risk_scores, g') := calculate_risk_scores o_risk g clauses in
  (clauses, risk_scores, g').

End Pipeline.

Import Pipeline.

(* ================================================================== *)
(** ** The wording of the specification, for comparison *)
(* ================================================================== *)

Module Spec.

(** Clamped to the interval from 0 to 1. *)
Definition clamp01 (x : Q) : Q :=
  if Qltb x 0 then 0 else if Qltb 1 x then 1 else x.

Definition total_score (clause_text : str) : Q := fst (pattern_totals clause_text).

Definition total_weight (clause_text : str) : Q := snd (pattern_totals clause_text).

(** [total_score / total_weight] if [total_weight > 0], else 0. *)
Definition pattern_component (clause_text : str) : Q :=
  if Qltb 0 (total_weight clause_text)
  then total_score clause_text / total_weight clause_text
  else 0.

(** [final_score = pattern_component + additional_adjustments], clamped
    once at the very end. *)
Definition final_score (clause_text : str) : Q :=
  clamp01 (pattern_component clause_text
           + _calculate_additional_risk_factors clause_text).

(** +0.1 above 200 characters, else +0.05 above 100. *)
Definition length_bonus (clause_text : str) : Q :=
  if (200 <? len clause_text)%Z then 0.1
  else if (100 <? len clause_text)%Z then 0.05
  else 0.

(** The offsets of [s] at which [sub] occurs. *)
Fixpoint occurrences (sub s : str) : nat :=
  ((if starts_with sub s then 1 else 0)
   + match s with
     | [] => 0
     | _ :: s' => occurrences sub s'
     end)%nat.

(** All occurrences of the keywords of a list. *)
Definition keyword_occurrences (words : list string) (clause_lower : str) : nat :=
  list_sum (map (fun word => occurrences (py word) clause_lower) words).

(** The additional adjustment counted per occurrence of a keyword. *)
Definition additional_per_occurrence (clause_text : str) : Q :=
  let clause_lower := lower clause_text in
  length_bonus clause_text
  + py_min 0.2 (Qnat (keyword_occurrences negation_words clause_lower) * 0.05)
  + py_min 0.15 (Qnat (keyword_occurrences uncertainty_words clause_lower) * 0.03)
  + py_min 0.1 (Qnat (keyword_occurrences time_words clause_lower) * 0.05).

(** The keywords of a list that occur in the clause at all. *)
Definition keywords_present (words : list string) (clause_text : str) : nat :=
  List.length (filter (fun word => contains (py word) (lower clause_text)) words).

(** No pattern of any weighted group is found in the clause. *)
Definition no_pattern_matches (clause_text : str) : bool :=
  forallb (fun entry =>
             (count_matches (compiled_patterns (snd entry)) (lower clause_text) =? 0)%nat)
          risk_patterns.

Fixpoint nondecreasing (l : list Z) : bool :=
  match l with
  | a :: (b :: _) as rest => (a <=? b)%Z && nondecreasing rest
  | _ => true
  end.

(** A text with its whitespace taken out. *)
Definition squeeze (s : str) : str := filter (fun c => negb (isspace c)) s.

(** The threshold function of the data model. *)
Definition level_of (risk_score : Q) : level := fst (level_and_color risk_score).

(** All pattern strings of the catalogue. *)
Definition catalogue : list string :=
  clause_patterns
  ++ List.concat (map snd type_patterns)
  ++ List.concat (map (fun entry => patterns (snd entry)) risk_patterns)
  ++ map snd risk_checks
  ++ ["[.!?]+"%string].

(** Whether the group [ty] of [type_patterns] has a pattern found in the
    lower-cased clause. *)
Definition group_matches (ty : clause_type) (clause_text : str) : bool :=
  existsb (fun entry =>
             clause_type_beq ty (fst entry)
             && existsb (fun p => re_search NOFLAGS (compile p) (lower clause_text))
                        (snd entry))
          type_patterns.

(** The texts the specification tests with. *)
Definition penalty_text : str :=
  py "Either party may terminate this agreement immediately. The breaching party shall pay a penalty of $10,000 and indemnify the other party without limitation.".

Definition confidential_text : str :=
  py "The parties agree to keep all information strictly confidential and shall not disclose it.".

Definition terminate_text : str :=
  py "This Agreement shall terminate upon any breach by either party.".

(** A document that repeats a numbered heading. *)
Definition repeated_heading_text : str := py "1) c. If x. 1) c".

End Spec.

Import Spec.

(* ================================================================== *)
(** ** Invariants of the segmentation loop *)
(* ================================================================== *)

Module Invariants.

(** A non-empty string with no white space at either end. *)
Definition trimmed (s : str) : Prop := s <> [] /\ lstrip s = s /\ rstrip s = s.

(** After the sentences [done]: nothing has been read, or the buffer
    holds a trimmed [body] (behind one space when the first sentence did
    not open a clause) and the closed clauses followed by [body] spell
    the sentences read so far. *)
Definition loop_texts (st : loop_state) (done : list str) : Prop :=
  match done with
  | [] => clauses st = [] /\ current_clause st = []
  | _ :: _ =>
      exists body,
        trimmed body
        /\ (current_clause st = body \/ current_clause st = py " " ++ body)
        /\ join (py " ") (map text (clauses st) ++ [body]) = join (py " ") done
  end.

(** The closed clauses are numbered from 1 and [clause_id] is the next
    number. *)
Definition loop_ids (st : loop_state) : Prop :=
  map id (clauses st) = map Z.of_nat (seq 1 (List.length (clauses st)))
  /\ Segmentation.clause_id st = Z.of_nat (S (List.length (clauses st))).

End Invariants.

Import Invariants.

(* ================================================================== *)
(** ** pdf_service.py: how the report reads clauses and risk scores *)
(* ================================================================== *)

Module Report.

(** The "Risk Factors" cell of a row of the risk table. *)
Definition factors_cell (risk : assessment) : str :=
  if (50 <? len (join (py ", ") (risk_factors risk)))%Z
  then firstn 50 (join (py ", ") (risk_factors risk)) ++ py "..."
  else join (py ", ") (risk_factors risk).

(** [clauses[:10]], the clauses the report prints. *)
Definition shown_clauses (clauses : list clause) : list clause := firstn 10 clauses.

(** The text printed for a clause: long clauses are truncated. *)
Definition shown_text (clause_text : str) : str :=
  if (300 <? len clause_text)%Z
  then firstn 300 clause_text ++ py "... [truncated]"
  else clause_text.

(** [next((r for r in risk_scores if r.get('clause_id') == clause_id), None)] *)
Definition clause_risk (risk_scores : list assessment) (clause_id : Z)
  : option assessment :=
  List.find (fun r => (Risk.clause_id r =? clause_id)%Z) risk_scores.

(** The count printed in "... and N more clauses", when the line is
    printed. *)
Definition more_clauses (clauses : list clause) : option Z :=
  if (10 <? Z.of_nat (List.length clauses))%Z
  then Some (Z.of_nat (List.length clauses) - 10)%Z
  else None.

End Report.

Import Report.

(* ================================================================== *)
(** ** Vocabulary of the further properties *)
(* ================================================================== *)

Module Facts.

(** [s'] is what is left of [s] behind some prefix. *)
Definition suffix (s' s : str) : Prop := exists pre, s = pre ++ s'.

(** [p] occurs in [t]. *)
Definition infix (p t : str) : Prop := exists a b, t = a ++ p ++ b.

(** The characters the sentence split cuts at. *)
Definition is_terminator (c : ascii) : bool :=
  Ascii.eqb "." c || Ascii.eqb "!" c || Ascii.eqb "?" c.

Definition no_terminator (s : str) : Prop :=
  Forall (fun c => is_terminator c = false) s.

(** What every clause closed by the loop of [_segment_text] satisfies. *)
Definition clause_ok (t : str) (c : clause) : Prop :=
  blank (text c) = false
  /\ strip (text c) = text c
  /\ (0 <= start_index c <= len t)%Z
  /\ (end_index c - start_index c = len (text c)
      \/ end_index c - start_index c = len (text c) + 1)%Z
  /\ type c <> unknown
  /\ 0.5 <= confidence c <= 0.9.

(** The loop of [_segment_text] after the sentences [done]. *)
Definition loop_shape (t : str) (st : loop_state) (done : list str) : Prop :=
  loop_texts st done
  /\ Forall (clause_ok t) (clauses st)
  /\ (0 <= cur_start_index st <= len t)%Z
  /\ no_terminator (current_clause st)
  /\ List.length (clauses st) = List.length (filter _is_clause_start (tl done)).

(** Whether the patterns of one group of [type_patterns] are found. *)
Definition entry_matches (clause_text : str) (entry : clause_type * list string) : bool :=
  existsb (fun pattern => re_search NOFLAGS (compile pattern) (lower clause_text))
          (snd entry).

(** The names a computed assessment can list. *)
Definition factor_names : list str := map (fun check => py (fst check)) risk_checks.

Definition level_eqb (a b : level) : bool :=
  match a, b with
  | high, high | medium, medium | low, low => true
  | _, _ => false
  end.

(** The entry of [risk_patterns] under a key. *)
Definition group_of (lvl : level) : group :=
  match List.find (fun entry => level_eqb (fst entry) lvl) risk_patterns with
  | Some entry => snd entry
  | None => {| patterns := []; weight := 0 |}
  end.

(** The matches of one group in a clause. *)
Definition matches_of (lvl : level) (clause_text : str) : nat :=
  count_matches (compiled_patterns (group_of lvl)) (lower clause_text).

(** Matches per word, as the scorer normalises them. *)
Definition density (lvl : level) (clause_text : str) : Q :=
  Qnat (matches_of lvl clause_text) / Qnat (Nat.max 1 (word_count clause_text)).

(** The levels in rising order. *)
Definition level_rank (risk_level : level) : nat :=
  match risk_level with low => 0 | medium => 1 | high => 2 end.

(** The colour shown for a level. *)
Definition level_color (risk_level : level) : str :=
  match risk_level with
  | high => py "#ff4444"
  | medium => py "#ffaa00"
  | low => py "#44aa44"
  end.

(** The sentence that opens each explanation. *)
Definition base_explanation (risk_level : level) : str :=
  _generate_risk_explanation risk_level [].

End Facts.

Import Facts.

(* ================================================================== *)
(** ** Where the sentence units stand in the text *)
(* ================================================================== *)

Module Places.

(** [re.split] once more, keeping with each piece the offset at which
    it begins; [pos] is the offset of [s] in the text being split. *)
Fixpoint split_at (fl : flags) (r : regex) (fuel : nat)
    (prev : option ascii) (s : str) (cur : str) (pos : nat) : list (nat * str) :=
  match fuel with
  | O => [((pos - List.length cur)%nat, rev cur ++ s)]
  | S f =>
      match s with
      | [] => [((pos - List.length cur)%nat, rev cur)]
      | c :: t =>
          match match_here fl r prev s with
          | Some (p', s') =>
              if (List.length s' <? List.length s)%nat
              then ((pos - List.length cur)%nat, rev cur)
                   :: split_at fl r f p' s' []
                        (pos + (List.length s - List.length s'))%nat
              else split_at fl r f (Some c) t (c :: cur) (S pos)
          | None => split_at fl r f (Some c) t (c :: cur) (S pos)
          end
      end
  end.

(** The sentence units of [_split_into_sentences], each with the offset
    at which it stands in the text: trimming a piece moves its offset
    past the white space taken from its front. *)
Definition sentence_places (text : str) : list (nat * str) :=
  let pieces :=
    split_at NOFLAGS (compile "[.!?]+") (S (List.length text)) None text [] 0 in
  map (fun piece =>
         ((fst piece
           + (List.length (snd piece) - List.length (lstrip (snd piece))))%nat,
          strip (snd piece)))
      (filter (fun piece => negb (blank (snd piece))) pieces).

(** [sub] is read in [s] from offset [i] on. *)
Definition occurs_at (sub s : str) (i : nat) : bool := starts_with sub (skipn i s).

(** No sentence unit that opens a clause is also read in the text
    before the place where it stands. *)
Definition no_earlier_copy (text : str) : bool :=
  forallb (fun place =>
             negb (_is_clause_start (snd place))
             || forallb (fun i => negb (occurs_at (snd place) text i))
                        (seq 0 (fst place)))
          (sentence_places text).

(** The places follow one another in the text from offset [from] on,
    without overlap, and each unit is read at its place. *)
Fixpoint in_order (text : str) (from : nat) (places : list (nat * str)) : Prop :=
  match places with
  | [] => True
  | place :: rest =>
      (from <= fst place)%nat
      /\ occurs_at (snd place) text (fst place) = true
      /\ in_order text (fst place + List.length (snd place)) rest
  end.

(** The clause is the first one and starts at 0, or it starts at the
    place of a sentence unit that opens a clause and its text begins
    with that unit. *)
Definition opens_at (text : str) (c : clause) : Prop :=
  (id c = 1%Z /\ start_index c = 0%Z)
  \/ exists place,
       In place (sentence_places text)
       /\ _is_clause_start (snd place) = true
       /\ start_index c = Z.of_nat (fst place)
       /\ starts_with (snd place) (Segmentation.text c) = true.

(** The loop of [_segment_text] when every unit read so far stands
    before offset [bound]. *)
Definition loop_order (text : str) (st : loop_state) (bound : nat) : Prop :=
  nondecreasing (map start_index (clauses st)) = true
  /\ Forall (fun c => (start_index c <= cur_start_index st)%Z) (clauses st)
  /\ (cur_start_index st <= Z.of_nat bound)%Z
  /\ Forall (opens_at text) (clauses st)
  /\ ((Segmentation.clause_id st = 1%Z /\ cur_start_index st = 0%Z)
      \/ exists place rest,
           In place (sentence_places text)
           /\ _is_clause_start (snd place) = true
           /\ cur_start_index st = Z.of_nat (fst place)
           /\ current_clause st = snd place ++ rest).

(** A text whose clauses all open at a boundary pattern. *)
Definition numbered_text : str := py "1) Fees are due. If unpaid, interest runs! Unless waived.".

End Places.

Import Places.

(* ================================================================== *)
(** * Properties *)
(* ================================================================== *)

(** Closed facts about concrete texts are settled by running the model. *)
Ltac by_evaluation := vm_compute; reflexivity.
Ltac refute_by_evaluation H := vm_compute in H; discriminate H.

(** Every pattern string of the services is inside the parsed syntax. *)
Lemma catalogue_parses :
  forallb (fun p => match parse p with Some _ => true | None => false end)
          catalogue = true.
Proof. by_evaluation. Qed.

(* ------------------------------------------------------------------ *)
(** ** Classification of the two test sentences *)
(* ------------------------------------------------------------------ *)

Section Classification.

(** The groups of [type_patterns] in the order the loop visits them. *)
Lemma type_patterns_order :
  map fst type_patterns =
  [definition; obligation; prohibition; condition;
   termination; liability; payment; confidentiality].
Proof. reflexivity. Qed.

(** C5, as stated, fails: the confidentiality sentence is not classified
    as a prohibition. *)
Lemma confidential_text_not_prohibition :
  _classify_clause_type confidential_text <> prohibition.
Proof. vm_compute. discriminate. Qed.

(** C5, amended: the confidentiality sentence is classified as an
    obligation.  No definition phrase occurs in it, the obligation group
    matches (it holds "agree to" and "shall"), and that group is visited
    before the prohibition and confidentiality groups, which match too. *)
Theorem confidential_text_is_obligation :
  _classify_clause_type confidential_text = obligation
  /\ group_matches definition confidential_text = false
  /\ group_matches obligation confidential_text = true
  /\ group_matches prohibition confidential_text = true
  /\ group_matches confidentiality confidential_text = true.
Proof. vm_compute. repeat split. Qed.

(** C6: the termination sentence is classified as an obligation: the
    obligation group, which holds "shall", matches and is visited before
    the termination group, which matches as well. *)
Theorem terminate_text_is_obligation :
  _classify_clause_type terminate_text = obligation
  /\ group_matches definition terminate_text = false
  /\ group_matches obligation terminate_text = true
  /\ group_matches termination terminate_text = true
  /\ nth_error (map fst type_patterns) 1 = Some obligation
  /\ nth_error (map fst type_patterns) 4 = Some termination.
Proof. vm_compute. repeat split. Qed.

End Classification.

(* ------------------------------------------------------------------ *)
(** ** The penalty example *)
(* ------------------------------------------------------------------ *)

Section PenaltyExample.

(** C4, as stated, fails: the analysis of the penalty example has no
    second clause, so no second assessment of level high. *)
Lemma penalty_text_no_second_clause :
  ~ (exists g a,
        nth_error (snd (fst (analyze Returned Returned g penalty_text))) 1 = Some a
        /\ risk_level a = high
        /\ In (py "Penalty Clauses") (risk_factors a)
        /\ In (py "Indemnification") (risk_factors a)).
Proof.
  intros [g [a [H _]]].
  refute_by_evaluation H.
Qed.

(** C4, amended: neither sentence of the penalty example opens with a
    boundary pattern, so the analysis returns one clause holding both
    sentences; its score is 287/920, its level is low, and its risk
    factors are exactly "Penalty Clauses" and "Indemnification". *)
Theorem penalty_text_one_low_clause : forall g : rng,
  let result := fst (analyze Returned Returned g penalty_text) in
  map text (fst result) =
    [py "Either party may terminate this agreement immediately The breaching party shall pay a penalty of $10,000 and indemnify the other party without limitation"]
  /\ map Risk.clause_id (snd result) = map id (fst result)
  /\ map (fun a => Qred (risk_score a)) (snd result) = [287 # 920]
  /\ map risk_level (snd result) = [low]
  /\ map risk_factors (snd result) = [[py "Penalty Clauses"; py "Indemnification"]].
Proof.
  intros g. vm_compute. repeat split.
Qed.

End PenaltyExample.

(* ------------------------------------------------------------------ *)
(** ** Rational arithmetic of the scorer *)
(* ------------------------------------------------------------------ *)

Section Arithmetic.

Lemma Qltb_true (a b : Q) : Qltb a b = true <-> a < b.
Proof.
  unfold Qltb. rewrite Qlt_alt. destruct (a ?= b); split; congruence.
Qed.

Lemma Qltb_false (a b : Q) : Qltb a b = false <-> b <= a.
Proof.
  split; intro H.
  - apply Qnot_lt_le. intro K. apply Qltb_true in K. congruence.
  - destruct (Qltb a b) eqn:E; auto. apply Qltb_true in E. lra.
Qed.

Lemma Qgeb_true (a b : Q) : Qgeb a b = true <-> b <= a.
Proof. unfold Qgeb. apply Qle_bool_iff. Qed.

Lemma Qgeb_false (a b : Q) : Qgeb a b = false <-> a < b.
Proof.
  unfold Qgeb. split; intro H.
  - apply Qnot_le_lt. intro K. apply Qle_bool_iff in K. congruence.
  - destruct (Qle_bool b a) eqn:E; auto. apply Qle_bool_iff in E. lra.
Qed.

Lemma py_min_cases (a b : Q) :
  (b < a /\ py_min a b = b) \/ (a <= b /\ py_min a b = a).
Proof.
  unfold py_min. destruct (Qltb b a) eqn:E.
  - left. split; auto. apply Qltb_true; auto.
  - right. split; auto. apply Qltb_false; auto.
Qed.

Lemma Qnat_nonneg (n : nat) : 0 <= Qnat n.
Proof.
  unfold Qnat. replace 0 with (inject_Z 0) by reflexivity.
  rewrite <- Zle_Qle. lia.
Qed.

End Arithmetic.

Section AdditionalRisk.

Lemma length_bonus_range (t : str) : 0 <= length_bonus t <= 0.1.
Proof.
  unfold length_bonus.
  destruct (200 <? len t)%Z; [lra|]. destruct (100 <? len t)%Z; lra.
Qed.

(** The code's running sum, in closed form. *)
Lemma additional_closed_form (t : str) :
  _calculate_additional_risk_factors t ==
    length_bonus t
    + py_min 0.2 (Qnat (sum_ones (fun w => contains (py w) (lower t)) negation_words) * 0.05)
    + py_min 0.15 (Qnat (sum_ones (fun w => contains (py w) (lower t)) uncertainty_words) * 0.03)
    + py_min 0.1 (Qnat (sum_ones (fun w => contains (py w) (lower t)) time_words) * 0.05).
Proof.
  unfold _calculate_additional_risk_factors, length_bonus.
  destruct (200 <? len t)%Z; [lra|]. destruct (100 <? len t)%Z; lra.
Qed.

Lemma additional_range (t : str) :
  0 <= _calculate_additional_risk_factors t <= 0.55.
Proof.
  rewrite additional_closed_form.
  pose proof (length_bonus_range t) as HL.
  set (n1 := sum_ones _ negation_words). set (n2 := sum_ones _ uncertainty_words).
  set (n3 := sum_ones _ time_words).
  pose proof (Qnat_nonneg n1). pose proof (Qnat_nonneg n2). pose proof (Qnat_nonneg n3).
  destruct (py_min_cases 0.2 (Qnat n1 * 0.05)) as [[? ->]|[? ->]];
  destruct (py_min_cases 0.15 (Qnat n2 * 0.03)) as [[? ->]|[? ->]];
  destruct (py_min_cases 0.1 (Qnat n3 * 0.05)) as [[? ->]|[? ->]]; lra.
Qed.

End AdditionalRisk.

Section PatternTotals.

Lemma score_step_nonneg (t tl : str) (acc : Q * Q) (entry : level * group) :
  0 <= weight (snd entry) ->
  0 <= fst acc /\ 0 <= snd acc ->
  0 <= fst (score_step t tl acc entry) /\ 0 <= snd (score_step t tl acc entry).
Proof.
  intros Hw [Hs Ht]. unfold score_step. destruct acc as [ts tw].
  set (m := count_matches _ _). set (w := Nat.max 1 _).
  assert (1 <= w)%nat as Hw1 by (unfold w; lia).
  clearbody m w. simpl in Hs, Ht.
  destruct (0 <? m)%nat; cbn [fst snd]; [|auto].
  assert (0 <= Qnat m / Qnat w) as Hn.
  { apply Qle_shift_div_l.
    - unfold Qnat. replace 0 with (inject_Z 0) by reflexivity.
      rewrite <- Zlt_Qlt. lia.
    - rewrite Qmult_0_l. apply Qnat_nonneg. }
  split; [|lra].
  assert (0 <= Qnat m / Qnat w * weight (snd entry)) by (apply Qmult_le_0_compat; auto).
  lra.
Qed.

Lemma fold_score_step_nonneg (t tl : str) (groups : list (level * group)) :
  Forall (fun entry => 0 <= weight (snd entry)) groups ->
  forall acc, 0 <= fst acc /\ 0 <= snd acc ->
  0 <= fst (fold_left (score_step t tl) groups acc)
  /\ 0 <= snd (fold_left (score_step t tl) groups acc).
Proof.
  induction 1 as [|entry groups Hw _ IH]; intros acc Hacc; simpl; auto.
  apply IH. apply score_step_nonneg; auto.
Qed.

Lemma risk_weights_nonneg :
  Forall (fun entry => 0 <= weight (snd entry)) risk_patterns.
Proof. repeat constructor; simpl; lra. Qed.

Lemma pattern_totals_nonneg (t : str) :
  0 <= total_score t /\ 0 <= total_weight t.
Proof.
  unfold total_score, total_weight, pattern_totals.
  apply fold_score_step_nonneg; [apply risk_weights_nonneg | simpl; lra].
Qed.

(** The scorer, in terms of the two totals. *)
Lemma analyze_clause_risk_unfold (t : str) :
  _analyze_clause_risk t =
    if blank t then 0.0
    else if Qltb 0 (total_weight t)
         then py_min 1.0 ((total_score t + _calculate_additional_risk_factors t)
                          / total_weight t)
         else _calculate_additional_risk_factors t.
Proof.
  unfold _analyze_clause_risk, total_score, total_weight.
  destruct (pattern_totals t) as [ts tw]. reflexivity.
Qed.

Lemma analyze_clause_risk_range (t : str) : 0 <= _analyze_clause_risk t <= 1.
Proof.
  rewrite analyze_clause_risk_unfold.
  destruct (blank t); [lra|].
  pose proof (additional_range t) as Ha.
  destruct (pattern_totals_nonneg t) as [Hs Hw].
  destruct (Qltb 0 (total_weight t)) eqn:E; [|lra].
  apply Qltb_true in E.
  set (x := (_ + _) / _).
  assert (0 <= x) as Hx.
  { unfold x. apply Qle_shift_div_l; auto. lra. }
  destruct (py_min_cases 1.0 x) as [[? ->]|[? ->]]; lra.
Qed.

End PatternTotals.

Section Levels.

Lemma level_and_color_cases (s : Q) :
  (0.7 <= s /\ level_and_color s = (high, py "#ff4444"))
  \/ (0.4 <= s < 0.7 /\ level_and_color s = (medium, py "#ffaa00"))
  \/ (s < 0.4 /\ level_and_color s = (low, py "#44aa44")).
Proof.
  unfold level_and_color.
  destruct (Qgeb s 0.7) eqn:E1.
  - left. apply Qgeb_true in E1. auto.
  - apply Qgeb_false in E1. destruct (Qgeb s 0.4) eqn:E2.
    + right. left. apply Qgeb_true in E2. auto.
    + right. right. apply Qgeb_false in E2. auto.
Qed.

Lemma assess_fields (c : clause) :
  risk_score (assess c) = _analyze_clause_risk (text c)
  /\ (risk_level (assess c), color (assess c))
     = level_and_color (_analyze_clause_risk (text c)).
Proof.
  unfold assess. destruct (level_and_color _) as [l col]. simpl. auto.
Qed.

Lemma assess_cases (c : clause) :
  (0.7 <= risk_score (assess c) /\ risk_level (assess c) = high
   /\ color (assess c) = py "#ff4444")
  \/ (0.4 <= risk_score (assess c) < 0.7 /\ risk_level (assess c) = medium
      /\ color (assess c) = py "#ffaa00")
  \/ (risk_score (assess c) < 0.4 /\ risk_level (assess c) = low
      /\ color (assess c) = py "#44aa44").
Proof.
  destruct (assess_fields c) as [Hs Hlc]. rewrite Hs.
  destruct (level_and_color_cases (_analyze_clause_risk (text c)))
    as [[H E]|[[H E]|[H E]]]; rewrite E in Hlc; injection Hlc as Hl Hc; auto.
Qed.

(** C3: every assessment computed by [_calculate_risks] has its score
    between 0 and 1, its level given by the thresholds (at least 0.7
    high, at least 0.4 medium, else low, the boundary values going up),
    and its colour fixed by the level, one colour per level. *)
Theorem calculated_risk_range_level_color : forall clauses : list clause,
  Forall (fun a =>
            0 <= risk_score a <= 1
            /\ risk_level a = level_of (risk_score a)
            /\ ((0.7 <= risk_score a /\ risk_level a = high
                 /\ color a = py "#ff4444")
                \/ (0.4 <= risk_score a < 0.7 /\ risk_level a = medium
                    /\ color a = py "#ffaa00")
                \/ (risk_score a < 0.4 /\ risk_level a = low
                    /\ color a = py "#44aa44")))
         (_calculate_risks clauses)
  /\ (forall a b, In a (_calculate_risks clauses) -> In b (_calculate_risks clauses) ->
                  (risk_level a = risk_level b <-> color a = color b))
  /\ level_of 0.7 = high /\ level_of 0.69 = medium
  /\ level_of 0.4 = medium /\ level_of 0.39 = low.
Proof.
  intros clauses. split; [|split; [|repeat split]].
  - unfold _calculate_risks. apply Forall_map, Forall_forall. intros c _.
    split; [|split; [|apply assess_cases]].
    + destruct (assess_fields c) as [-> _]. apply analyze_clause_risk_range.
    + destruct (assess_fields c) as [Hs Hlc]. unfold level_of.
      rewrite Hs, <- Hlc. reflexivity.
  - unfold _calculate_risks. intros a b Ha Hb.
    apply in_map_iff in Ha. destruct Ha as [ca [<- _]].
    apply in_map_iff in Hb. destruct Hb as [cb [<- _]].
    destruct (assess_cases ca) as [[_ [La Ca]]|[[_ [La Ca]]|[_ [La Ca]]]];
    destruct (assess_cases cb) as [[_ [Lb Cb]]|[[_ [Lb Cb]]|[_ [Lb Cb]]]];
      rewrite La, Lb, Ca, Cb; split; intros H;
      first [reflexivity | discriminate H | (vm_compute in H; discriminate H)].
Qed.

End Levels.

Section ScoreFormula.

(** C1, as stated, fails: on "generally never" the scorer returns 0.75,
    while the pattern component plus the adjustments, clamped at the
    end, is 0.55. *)
Lemma generally_never_scores_differ :
  blank (py "generally never") = false
  /\ _analyze_clause_risk (py "generally never") == 0.75
  /\ final_score (py "generally never") == 0.55
  /\ ~ _analyze_clause_risk (py "generally never")
       == final_score (py "generally never").
Proof.
  repeat (split; [by_evaluation|]).
  intro H. refute_by_evaluation H.
Qed.

Lemma clamp01_id (x : Q) : 0 <= x <= 1 -> clamp01 x = x.
Proof.
  intros [H0 H1]. unfold clamp01.
  destruct (Qltb x 0) eqn:E0; [apply Qltb_true in E0; lra|].
  destruct (Qltb 1 x) eqn:E1; [apply Qltb_true in E1; lra|]. reflexivity.
Qed.

Lemma py_min_one_clamp (x y : Q) : 0 <= x -> x == y -> py_min 1.0 x == clamp01 y.
Proof.
  intros Hx Hxy. unfold clamp01.
  destruct (Qltb y 0) eqn:E0; [apply Qltb_true in E0; lra|].
  destruct (py_min_cases 1.0 x) as [[H ->]|[H ->]];
    (destruct (Qltb 1 y) eqn:E1;
       [apply Qltb_true in E1 | apply Qltb_false in E1]); lra.
Qed.

(** C1, amended: for every non-blank clause text the risk score is the
    pattern component plus the additional adjustments, clamped to the
    interval from 0 to 1, where the adjustments are divided by
    total_weight whenever total_weight > 0: they are added to
    total_score before, not after, the division. *)
Theorem analyze_clause_risk_formula : forall t : str,
  blank t = false ->
  _analyze_clause_risk t ==
    clamp01 (pattern_component t
             + (if Qltb 0 (total_weight t)
                then _calculate_additional_risk_factors t / total_weight t
                else _calculate_additional_risk_factors t)).
Proof.
  intros t Hb. rewrite analyze_clause_risk_unfold, Hb.
  pose proof (additional_range t) as Ha.
  destruct (pattern_totals_nonneg t) as [Hs Hw].
  unfold pattern_component.
  destruct (Qltb 0 (total_weight t)) eqn:E.
  - apply Qltb_true in E.
    apply py_min_one_clamp.
    + apply Qle_shift_div_l; auto. lra.
    + field. lra.
  - rewrite clamp01_id; lra.
Qed.

Lemma analyze_clause_risk_formula_witness :
  blank (py "generally never") = false
  /\ _analyze_clause_risk (py "generally never") ==
       clamp01 (pattern_component (py "generally never")
                + (if Qltb 0 (total_weight (py "generally never"))
                   then _calculate_additional_risk_factors (py "generally never")
                        / total_weight (py "generally never")
                   else _calculate_additional_risk_factors (py "generally never"))).
Proof.
  split; [reflexivity|].
  apply (analyze_clause_risk_formula (py "generally never")). reflexivity.
Defined.

End ScoreFormula.

Section Unmatched.

Lemma fold_score_step_unmatched (t : str) (groups : list (level * group)) :
  forallb (fun entry =>
             (count_matches (compiled_patterns (snd entry)) (lower t) =? 0)%nat)
          groups = true ->
  forall acc, fold_left (score_step t (lower t)) groups acc = acc.
Proof.
  induction groups as [|entry groups IH]; simpl; intros H acc; auto.
  apply andb_true_iff in H. destruct H as [H0 H].
  apply Nat.eqb_eq in H0.
  rewrite IH by assumption.
  unfold score_step. destruct acc as [ts tw]. rewrite H0. reflexivity.
Qed.

Lemma unmatched_totals (t : str) :
  no_pattern_matches t = true -> pattern_totals t = (0.0, 0.0).
Proof.
  intros H. unfold pattern_totals. apply fold_score_step_unmatched. exact H.
Qed.

(** C10, as stated, fails: a clause of 101 spaces matches no pattern
    and scores 0, while its additional adjustments are 0.05. *)
Lemma blank_long_clause_scores_zero :
  no_pattern_matches (repeat " "%char 101) = true
  /\ _analyze_clause_risk (repeat " "%char 101) == 0
  /\ _calculate_additional_risk_factors (repeat " "%char 101) == 0.05
  /\ ~ _analyze_clause_risk (repeat " "%char 101)
       == _calculate_additional_risk_factors (repeat " "%char 101).
Proof.
  repeat (split; [by_evaluation|]).
  intro H. refute_by_evaluation H.
Qed.

(** C10, amended: for every clause text in which no weighted pattern
    matches, total_weight is 0 and the risk score is the additional
    adjustments alone when the text is not blank, and 0 when it is; the
    adjustments and the score are at most 0.55, so the level is never
    high. *)
Theorem unmatched_clause_never_high : forall t : str,
  no_pattern_matches t = true ->
  total_weight t == 0
  /\ _analyze_clause_risk t
     == (if blank t then 0 else _calculate_additional_risk_factors t)
  /\ _calculate_additional_risk_factors t <= 0.55
  /\ _analyze_clause_risk t <= 0.55
  /\ level_of (_analyze_clause_risk t) <> high.
Proof.
  intros t H. pose proof (additional_range t) as Ha.
  assert (_analyze_clause_risk t
          == (if blank t then 0 else _calculate_additional_risk_factors t)) as Hs.
  { rewrite analyze_clause_risk_unfold. unfold total_weight.
    rewrite (unmatched_totals t H). simpl.
    destruct (blank t); reflexivity. }
  assert (_analyze_clause_risk t <= 0.55) as Hle.
  { rewrite Hs. destruct (blank t); lra. }
  split; [unfold total_weight; rewrite (unmatched_totals t H); reflexivity|].
  split; [exact Hs|]. split; [lra|]. split; [exact Hle|].
  unfold level_of.
  destruct (level_and_color_cases (_analyze_clause_risk t))
    as [[K E]|[[K E]|[K E]]]; rewrite E; simpl; try discriminate.
  lra.
Qed.

Lemma unmatched_clause_never_high_witness :
  no_pattern_matches (py "the parties never agree") = true
  /\ (total_weight (py "the parties never agree") == 0
      /\ _analyze_clause_risk (py "the parties never agree")
         == (if blank (py "the parties never agree") then 0
             else _calculate_additional_risk_factors (py "the parties never agree"))
      /\ _calculate_additional_risk_factors (py "the parties never agree") <= 0.55
      /\ _analyze_clause_risk (py "the parties never agree") <= 0.55
      /\ level_of (_analyze_clause_risk (py "the parties never agree")) <> high).
Proof.
  split; [by_evaluation|].
  apply (unmatched_clause_never_high (py "the parties never agree")).
  vm_compute. reflexivity.
Defined.

End Unmatched.

Section KeywordCounts.

Lemma sum_ones_length {A : Type} (cond : A -> bool) (xs : list A) :
  sum_ones cond xs = List.length (filter cond xs).
Proof.
  unfold sum_ones. induction (filter cond xs) as [|x l IH]; simpl; auto.
Qed.

Lemma filter_length_le {A : Type} (cond : A -> bool) (xs : list A) :
  (List.length (filter cond xs) <= List.length xs)%nat.
Proof.
  induction xs as [|x xs IH]; simpl; auto.
  destruct (cond x); simpl; lia.
Qed.

Lemma contains_occurs (sub s : str) :
  contains sub s = true -> (1 <= occurrences sub s)%nat.
Proof.
  induction s as [|c s IH]; simpl.
  - destruct (starts_with sub []); simpl; intros H; [lia | discriminate].
  - destruct (starts_with sub (c :: s)); simpl; intros H; [lia|].
    apply IH in H. lia.
Qed.

Lemma present_le_occurrences (words : list string) (t : str) :
  (keywords_present words t <= keyword_occurrences words (lower t))%nat.
Proof.
  unfold keywords_present, keyword_occurrences.
  induction words as [|w words IH]; simpl; auto.
  destruct (contains (py w) (lower t)) eqn:E; simpl; [|lia].
  apply contains_occurs in E. lia.
Qed.

(** C7, as stated, fails: "never never never" gets 0.05, not the 0.15
    of three occurrences. *)
Lemma never_thrice_counts_once :
  _calculate_additional_risk_factors (py "never never never") == 0.05
  /\ additional_per_occurrence (py "never never never") == 0.15
  /\ ~ _calculate_additional_risk_factors (py "never never never")
       == additional_per_occurrence (py "never never never").
Proof.
  repeat (split; [by_evaluation|]).
  intro H. refute_by_evaluation H.
Qed.

(** C7, amended: the additional adjustment is the length bonus plus
    0.05 per negation keyword of the 8-word list that occurs in the
    clause, capped at 0.2, plus 0.03 per hedging keyword of the 6-word
    list that occurs, capped at 0.15, plus 0.05 per urgency keyword of
    the 5-word list that occurs, capped at 0.1; a keyword counts once
    however often it occurs, so each count is at most the size of its
    list and at most the number of occurrences. *)
Theorem additional_risk_counts_keywords_once : forall t : str,
  _calculate_additional_risk_factors t ==
    length_bonus t
    + py_min 0.2 (Qnat (keywords_present negation_words t) * 0.05)
    + py_min 0.15 (Qnat (keywords_present uncertainty_words t) * 0.03)
    + py_min 0.1 (Qnat (keywords_present time_words t) * 0.05)
  /\ (keywords_present negation_words t <= 8)%nat
  /\ (keywords_present uncertainty_words t <= 6)%nat
  /\ (keywords_present time_words t <= 5)%nat
  /\ (keywords_present negation_words t
      <= keyword_occurrences negation_words (lower t))%nat
  /\ (keywords_present uncertainty_words t
      <= keyword_occurrences uncertainty_words (lower t))%nat
  /\ (keywords_present time_words t
      <= keyword_occurrences time_words (lower t))%nat.
Proof.
  intros t. split.
  - rewrite additional_closed_form. rewrite !sum_ones_length. reflexivity.
  - unfold keywords_present at 1 2 3.
    repeat split;
      try (eapply Nat.le_trans; [apply filter_length_le | simpl; lia]);
      apply present_le_occurrences.
Qed.

End KeywordCounts.

(* ------------------------------------------------------------------ *)
(** ** Segmentation *)
(* ------------------------------------------------------------------ *)

Section Strip.

Lemma lstrip_idem (s : str) : lstrip (lstrip s) = lstrip s.
Proof.
  induction s as [|c s IH]; simpl; auto.
  destruct (isspace c) eqn:E; auto. simpl. rewrite E. reflexivity.
Qed.

Lemma lstrip_head (s : str) (c : ascii) (r : str) :
  lstrip s = c :: r -> isspace c = false.
Proof.
  induction s as [|d s IH]; simpl; [discriminate|].
  destruct (isspace d) eqn:E; auto. intros H. inversion H; subst. exact E.
Qed.

Lemma lstrip_app (a b : str) : lstrip a <> [] -> lstrip (a ++ b) = lstrip a ++ b.
Proof.
  induction a as [|c a IH]; simpl; [congruence|].
  destruct (isspace c); auto.
Qed.

Lemma lstrip_all_space (s : str) : lstrip s = [] <-> forallb isspace s = true.
Proof.
  induction s as [|c s IH]; simpl; [tauto|].
  destruct (isspace c); simpl; [exact IH|]. split; discriminate.
Qed.

Lemma rstrip_nil_iff (s : str) : rstrip s = [] <-> lstrip (rev s) = [].
Proof.
  unfold rstrip. split; intros H.
  - apply (f_equal (@rev ascii)) in H. rewrite rev_involutive in H. exact H.
  - rewrite H. reflexivity.
Qed.

Lemma rstrip_idem (s : str) : rstrip (rstrip s) = rstrip s.
Proof. unfold rstrip. rewrite rev_involutive, lstrip_idem. reflexivity. Qed.

Lemma rstrip_app (a b : str) : rstrip b <> [] -> rstrip (a ++ b) = a ++ rstrip b.
Proof.
  intros H. unfold rstrip. rewrite rev_app_distr, lstrip_app.
  - rewrite rev_app_distr, rev_involutive. reflexivity.
  - intro K. apply H. apply rstrip_nil_iff. exact K.
Qed.

Lemma rstrip_cons_nonspace (c : ascii) (s : str) :
  isspace c = false -> rstrip (c :: s) = c :: rstrip s.
Proof.
  intros H. unfold rstrip. simpl.
  destruct (lstrip (rev s)) eqn:E.
  - assert (lstrip (rev s ++ [c]) = [c]) as ->; [|reflexivity].
    apply lstrip_all_space in E. clear - E H.
    induction (rev s) as [|d r IH]; simpl in *; [rewrite H; reflexivity|].
    apply andb_true_iff in E. destruct E as [E1 E2]. rewrite E1. auto.
  - rewrite lstrip_app by congruence. rewrite E.
    rewrite rev_app_distr. reflexivity.
Qed.

Lemma strip_trimmed (s : str) : strip s <> [] -> trimmed (strip s).
Proof.
  intros H. split; [exact H|]. split.
  - unfold strip in *. destruct (lstrip s) as [|c z] eqn:E; [exfalso; apply H; reflexivity|].
    pose proof (lstrip_head _ E) as Hc.
    rewrite rstrip_cons_nonspace by exact Hc. simpl. rewrite Hc. reflexivity.
  - unfold strip. apply rstrip_idem.
Qed.

Lemma trimmed_strip (s : str) : trimmed s -> strip s = s.
Proof. intros [_ [Hl Hr]]. unfold strip. rewrite Hl. exact Hr. Qed.

Lemma trimmed_join (a s : str) : trimmed a -> trimmed s -> trimmed (a ++ py " " ++ s).
Proof.
  intros [Ha [La Ra]] [Hs [Ls Rs]]. split; [|split].
  - destruct a; [congruence|discriminate].
  - rewrite lstrip_app by congruence. rewrite La. reflexivity.
  - rewrite app_assoc. rewrite rstrip_app by congruence. rewrite Rs. reflexivity.
Qed.

Lemma strip_space_cons (s : str) : strip (py " " ++ s) = strip s.
Proof. reflexivity. Qed.

Lemma blank_all_space (s : str) : blank s = forallb isspace s.
Proof.
  unfold blank, strip.
  destruct (forallb isspace s) eqn:E.
  - apply lstrip_all_space in E. rewrite E. reflexivity.
  - destruct (lstrip s) as [|c z] eqn:L.
    + apply lstrip_all_space in L. congruence.
    + rewrite rstrip_cons_nonspace by (eapply lstrip_head; eauto). reflexivity.
Qed.

Lemma blank_false_strip (s : str) : blank s = false <-> strip s <> [].
Proof.
  unfold blank. destruct (strip s); split; intros H; congruence.
Qed.

End Strip.

Section Sentences.

Lemma sentences_trimmed (t : str) : Forall trimmed (_split_into_sentences t).
Proof.
  unfold _split_into_sentences.
  apply Forall_map, Forall_forall. intros x Hx.
  apply filter_In in Hx. destruct Hx as [_ Hx].
  apply strip_trimmed. apply blank_false_strip.
  destruct (blank x); [discriminate | reflexivity].
Qed.

End Sentences.

Section Join.

Lemma join_snoc (xs : list str) (a : str) :
  join (py " ") (xs ++ [a]) =
    match xs with
    | [] => a
    | _ :: _ => join (py " ") xs ++ py " " ++ a
    end.
Proof.
  induction xs as [|x xs IH]; [reflexivity|].
  destruct xs as [|y ys]; [reflexivity|].
  change (join (py " ") ((x :: y :: ys) ++ [a]))
    with (x ++ py " " ++ join (py " ") ((y :: ys) ++ [a])).
  rewrite IH.
  change (join (py " ") (x :: y :: ys)) with (x ++ py " " ++ join (py " ") (y :: ys)).
  rewrite <- !app_assoc. reflexivity.
Qed.

Lemma join_snoc_merge (xs : list str) (a s : str) :
  join (py " ") (xs ++ [a ++ py " " ++ s]) = join (py " ") (xs ++ [a]) ++ py " " ++ s.
Proof.
  rewrite !join_snoc. destruct xs; [reflexivity|].
  rewrite <- !app_assoc. reflexivity.
Qed.

End Join.

Section SegmentLoop.

Variable t : str.

Lemma body_not_blank (cur body : str) :
  trimmed body -> cur = body \/ cur = py " " ++ body ->
  blank cur = false /\ strip cur = body.
Proof.
  intros Hb Hc.
  assert (strip cur = body) as Hs.
  { destruct Hc as [-> | ->]; [|rewrite strip_space_cons]; apply trimmed_strip; exact Hb. }
  split; [|exact Hs].
  apply blank_false_strip. rewrite Hs. apply Hb.
Qed.

Lemma segment_step_texts (st : loop_state) (done : list str) (s : str) :
  loop_texts st done -> trimmed s ->
  loop_texts (segment_step t st s) (done ++ [s]).
Proof.
  intros Hinv Hs. unfold segment_step.
  destruct done as [|d done].
  - destruct Hinv as [Hc Hcur]. simpl. exists s. split; [exact Hs|].
    destruct (_is_clause_start s); rewrite Hcur; simpl.
    + rewrite Hc. auto.
    + rewrite Hc. auto.
  - destruct Hinv as [body [Hb [Hcur Hj]]].
    destruct (body_not_blank Hb Hcur) as [Hnb Hstrip].
    change ((d :: done) ++ [s]) with (d :: (done ++ [s])).
    cbv beta iota delta [loop_texts].
    change (d :: (done ++ [s])) with ((d :: done) ++ [s]).
    destruct (_is_clause_start s).
    + rewrite Hnb. simpl negb. cbn iota. cbn [clauses current_clause].
      exists s. split; [exact Hs|]. split; [left; reflexivity|].
      rewrite map_app. simpl map.
      rewrite Hstrip.
      rewrite (join_snoc (map text (clauses st) ++ [body]) s).
      rewrite (join_snoc (d :: done) s). rewrite Hj.
      destruct (map text (clauses st)); reflexivity.
    + cbn [clauses current_clause].
      exists (body ++ py " " ++ s). split; [apply trimmed_join; assumption|].
      split.
      * destruct Hcur as [-> | ->]; [left; reflexivity|right].
        rewrite <- app_assoc. reflexivity.
      * rewrite join_snoc_merge, Hj. rewrite (join_snoc (d :: done) s). reflexivity.
Qed.

Lemma fold_segment_texts (rest : list str) :
  Forall trimmed rest ->
  forall (st : loop_state) (done : list str),
    loop_texts st done ->
    loop_texts (fold_left (segment_step t) rest st) (done ++ rest).
Proof.
  induction 1 as [|s rest Hs _ IH]; intros st done Hinv; simpl.
  - rewrite app_nil_r. exact Hinv.
  - change (s :: rest) with ([s] ++ rest). rewrite app_assoc.
    apply IH. apply segment_step_texts; assumption.
Qed.

Lemma segment_step_ids (st : loop_state) (s : str) :
  loop_ids st -> loop_ids (segment_step t st s).
Proof.
  intros [Hm Hid]. unfold segment_step, loop_ids.
  destruct (_is_clause_start s); [|cbn [clauses Segmentation.clause_id]; auto].
  destruct (negb (blank (current_clause st))); cbn [clauses Segmentation.clause_id]; [|auto].
  rewrite length_app, map_app. simpl List.length.
  rewrite Nat.add_1_r, seq_S, map_app, Hm. simpl. rewrite Hid.
  split; [reflexivity|lia].
Qed.

Lemma fold_segment_ids (rest : list str) :
  forall st : loop_state,
    loop_ids st -> loop_ids (fold_left (segment_step t) rest st).
Proof.
  induction rest as [|s rest IH]; intros st Hinv; simpl; auto.
  apply IH. apply segment_step_ids. exact Hinv.
Qed.

Lemma segment_text_ids :
  map id (_segment_text t) = map Z.of_nat (seq 1 (List.length (_segment_text t))).
Proof.
  unfold _segment_text.
  set (st := fold_left _ _ _).
  assert (loop_ids st) as [Hm Hid].
  { apply fold_segment_ids. split; reflexivity. }
  destruct (negb (blank (current_clause st))).
  - destruct (clauses st ++ [_]) eqn:E; [destruct (clauses st); discriminate|].
    rewrite <- E. rewrite length_app, map_app. simpl List.length.
    rewrite Nat.add_1_r, seq_S, map_app, Hm. simpl. rewrite Hid. reflexivity.
  - destruct (clauses st) eqn:E; [reflexivity|]. exact Hm.
Qed.

Lemma segment_text_texts :
  join (py " ") (map text (_segment_text t)) =
    match _split_into_sentences t with
    | [] => t
    | _ :: _ => join (py " ") (_split_into_sentences t)
    end.
Proof.
  unfold _segment_text.
  assert (loop_texts (fold_left (segment_step t) (_split_into_sentences t) loop_init)
                     ([] ++ _split_into_sentences t)) as H.
  { apply fold_segment_texts; [apply sentences_trimmed | split; reflexivity]. }
  simpl app in H.
  set (st := fold_left _ _ _) in *.
  destruct (_split_into_sentences t) as [|s ss].
  - destruct H as [Hc Hcur]. rewrite Hcur, Hc. reflexivity.
  - destruct H as [body [Hb [Hcur Hj]]].
    destruct (body_not_blank Hb Hcur) as [Hnb Hstrip].
    rewrite Hnb. simpl negb. cbn iota.
    destruct (clauses st ++ [_]) eqn:E; [destruct (clauses st); discriminate|].
    rewrite <- E. rewrite map_app. simpl map.
    rewrite Hstrip. exact Hj.
Qed.

End SegmentLoop.

Section SegmentResults.

Lemma segment_text_nonempty (t : str) : (1 <= List.length (_segment_text t))%nat.
Proof.
  unfold _segment_text.
  set (st := fold_left _ _ _).
  destruct (if negb (blank (current_clause st)) then _ else _); simpl; lia.
Qed.

(** C2, as stated, fails on a document that repeats a heading: the
    start offsets of its three clauses are 0, 6, 0, and the clause texts
    put together lack the sentence terminators of the source, white
    space apart. *)
Lemma repeated_heading_breaks_order :
  map start_index (segment_clauses Returned repeated_heading_text) = [0; 6; 0]%Z
  /\ nondecreasing (map start_index (segment_clauses Returned repeated_heading_text))
     = false
  /\ squeeze (List.concat (map text (segment_clauses Returned repeated_heading_text)))
     <> squeeze repeated_heading_text.
Proof.
  repeat (split; [by_evaluation|]).
  vm_compute. discriminate.
Qed.

(** C8: an empty or whitespace-only input is segmented into no clause
    and scored 0 with level low; any other input is segmented into at
    least one clause. *)
Theorem blank_input_no_clause_zero_score : forall (o : outcome) (c : clause),
  segment_clauses o (py "") = []
  /\ (if forallb isspace (text c)
      then segment_clauses o (text c) = []
           /\ risk_score (assess c) == 0
           /\ risk_level (assess c) = low
      else (1 <= List.length (segment_clauses o (text c)))%nat).
Proof.
  intros o c. split; [reflexivity|].
  rewrite <- blank_all_space.
  destruct (blank (text c)) eqn:E.
  - unfold segment_clauses. rewrite E. split; [reflexivity|].
    destruct (assess_fields c) as [Hs Hlc].
    assert (_analyze_clause_risk (text c) = 0.0) as Hz.
    { unfold _analyze_clause_risk. rewrite E. reflexivity. }
    rewrite Hz in Hs, Hlc. rewrite Hs. split; [reflexivity|].
    assert (level_and_color 0.0 = (low, py "#44aa44")) as K by reflexivity.
    rewrite K in Hlc. injection Hlc as Hl _. exact Hl.
  - unfold segment_clauses. rewrite E.
    destruct o; [apply segment_text_nonempty | simpl; lia].
Qed.

End SegmentResults.

(* ------------------------------------------------------------------ *)
(** ** The matcher only moves forward *)
(* ------------------------------------------------------------------ *)

Section MatcherFacts.

Variable fl : flags.
Variable R : Type.

Lemma suffix_refl (s : str) : suffix s s.
Proof. exists []. reflexivity. Qed.

Lemma suffix_trans (a b c : str) : suffix a b -> suffix b c -> suffix a c.
Proof.
  intros [p ->] [q ->]. exists (q ++ p). rewrite app_assoc. reflexivity.
Qed.

Lemma suffix_cons (c : ascii) (s : str) : suffix s (c :: s).
Proof. exists [c]. reflexivity. Qed.

Lemma suffix_length (a b : str) : suffix a b -> (List.length a <= List.length b)%nat.
Proof. intros [p ->]. rewrite length_app. lia. Qed.

(** A successful match hands its continuation a position further on in
    the input. *)
Lemma rmatch_position (r : regex) :
  forall (prev : option ascii) (s : str) (k : option ascii -> str -> option R) (x : R),
    rmatch fl r prev s k = Some x ->
    exists p' s', suffix s' s /\ k p' s' = Some x.
Proof.
  induction r as [|its| | |a IHa b IHb|a IHa b IHb|a IHa|a IHa];
    intros prev s k x H; simpl in H.
  - exists prev, s. split; [apply suffix_refl | exact H].
  - destruct s as [|c s']; [discriminate|].
    destruct (sym_ok fl its c); [|discriminate].
    exists (Some c), s'. split; [apply suffix_cons | exact H].
  - destruct (at_bol fl prev); [|discriminate].
    exists prev, s. split; [apply suffix_refl | exact H].
  - destruct (xorb _ _); [|discriminate].
    exists prev, s. split; [apply suffix_refl | exact H].
  - apply IHa in H. destruct H as [p1 [s1 [S1 H]]].
    apply IHb in H. destruct H as [p2 [s2 [S2 H]]].
    exists p2, s2. split; [eapply suffix_trans; eauto | exact H].
  - destruct (rmatch fl a prev s k) eqn:E.
    + inversion H; subst. eapply IHa; eauto.
    + eapply IHb; eauto.
  - revert H. generalize (List.length s). intros n. revert prev s.
    induction n as [|n IHn]; intros p s0 H.
    + exists p, s0. split; [apply suffix_refl | exact H].
    + match type of H with
      | match ?m with _ => _ end = _ => destruct m eqn:E
      end.
      * inversion H; subst. apply IHa in E. destruct E as [p1 [s1 [S1 E]]].
        destruct (List.length s1 <? List.length s0)%nat; [|discriminate].
        apply IHn in E. destruct E as [p2 [s2 [S2 E]]].
        exists p2, s2. split; [eapply suffix_trans; eauto | exact E].
      * exists p, s0. split; [apply suffix_refl | exact H].
  - destruct (rmatch fl a prev s k) eqn:E.
    + inversion H; subst. eapply IHa; eauto.
    + exists prev, s. split; [apply suffix_refl | exact H].
Qed.

End MatcherFacts.

Lemma match_here_suffix (fl : flags) (r : regex) (prev p' : option ascii) (s s' : str) :
  match_here fl r prev s = Some (p', s') -> suffix s' s.
Proof.
  unfold match_here. intros H. apply rmatch_position in H.
  destruct H as [p1 [s1 [S H]]]. inversion H; subst. exact S.
Qed.

Section Infix.

Lemma suffix_infix (a b : str) : suffix a b -> infix a b.
Proof. intros [p ->]. exists p, []. rewrite app_nil_r. reflexivity. Qed.

Lemma infix_refl (s : str) : infix s s.
Proof. exists [], []. rewrite app_nil_r. reflexivity. Qed.

Lemma infix_trans (a b c : str) : infix a b -> infix b c -> infix a c.
Proof.
  intros [p [q ->]] [u [v ->]]. exists (u ++ p), (q ++ v).
  rewrite <- !app_assoc. reflexivity.
Qed.

Lemma infix_app_r (p a b : str) : infix p b -> infix p (a ++ b).
Proof.
  intros [u [v ->]]. exists (a ++ u), v. rewrite <- app_assoc. reflexivity.
Qed.

Lemma infix_app_l (p a b : str) : infix p a -> infix p (a ++ b).
Proof.
  intros [u [v ->]]. exists u, (v ++ b). rewrite <- !app_assoc. reflexivity.
Qed.

Lemma infix_Forall (P : ascii -> Prop) (p t : str) :
  infix p t -> Forall P t -> Forall P p.
Proof.
  intros [a [b ->]] H. apply Forall_app in H. destruct H as [_ H].
  apply Forall_app in H. apply H.
Qed.

Lemma infix_length (p t : str) : infix p t -> (List.length p <= List.length t)%nat.
Proof. intros [a [b ->]]. rewrite !length_app. lia. Qed.

Lemma lstrip_suffix (s : str) : suffix (lstrip s) s.
Proof.
  induction s as [|c s IH]; simpl; [apply suffix_refl|].
  destruct (isspace c); [|apply suffix_refl].
  eapply suffix_trans; [exact IH | apply suffix_cons].
Qed.

Lemma strip_infix (s : str) : infix (strip s) s.
Proof.
  unfold strip, rstrip.
  apply infix_trans with (lstrip s); [|apply suffix_infix, lstrip_suffix].
  destruct (lstrip_suffix (rev (lstrip s))) as [pre E].
  exists [], (rev pre). simpl.
  rewrite <- rev_app_distr, <- E, rev_involutive. reflexivity.
Qed.

End Infix.

Section Find.

Lemma starts_with_app (sub b : str) : starts_with sub (sub ++ b) = true.
Proof.
  induction sub as [|c sub IH]; simpl; [reflexivity|].
  rewrite Ascii.eqb_refl. exact IH.
Qed.

(** [find] returns the offset of an occurrence whenever there is one. *)
Lemma find_from_infix (sub : str) (a : str) :
  forall (b : str) (i : Z),
    exists k : nat,
      find_from sub (a ++ sub ++ b) i = (i + Z.of_nat k)%Z
      /\ (k <= List.length a)%nat
      /\ starts_with sub (skipn k (a ++ sub ++ b)) = true.
Proof.
  induction a as [|c a IH]; intros b i.
  - exists 0%nat. simpl app. split; [|split; [lia | apply starts_with_app]].
    destruct (sub ++ b) eqn:E; simpl; rewrite <- ?E, starts_with_app; lia.
  - destruct (starts_with sub ((c :: a) ++ sub ++ b)) eqn:E.
    + exists 0%nat. split; [|split; [simpl; lia | exact E]].
      simpl app in *. simpl. rewrite E. lia.
    + destruct (IH b (i + 1)%Z) as [k [Hk [Hle Hs]]].
      exists (S k). split; [|split; [simpl; lia | exact Hs]].
      simpl app in *. simpl find_from. rewrite E, Hk. lia.
Qed.

Lemma find_infix (t sub : str) :
  infix sub t ->
  (0 <= find t sub <= len t - len sub)%Z
  /\ starts_with sub (skipn (Z.to_nat (find t sub)) t) = true.
Proof.
  intros [a [b ->]]. unfold find, len.
  destruct (find_from_infix sub a b 0) as [k [Hk [Hle Hs]]].
  rewrite Hk. rewrite !length_app. split; [lia|].
  replace (Z.to_nat (0 + Z.of_nat k)) with k by lia. exact Hs.
Qed.

End Find.

(* ------------------------------------------------------------------ *)
(** ** Sentence units *)
(* ------------------------------------------------------------------ *)

Section SentenceSplit.

Lemma terminator_pattern :
  compile "[.!?]+" =
  Seq (Sym [IChar "."; IChar "!"; IChar "?"])
      (Star (Sym [IChar "."; IChar "!"; IChar "?"])).
Proof. reflexivity. Qed.

Lemma sym_ok_terminator (c : ascii) :
  sym_ok NOFLAGS [IChar "."; IChar "!"; IChar "?"] c = is_terminator c.
Proof.
  unfold sym_ok, is_terminator, NOFLAGS.
  cbn [existsb item_ok ignorecase andb]. rewrite !orb_false_r, orb_assoc. reflexivity.
Qed.

Lemma star_never_fails (fl : flags) (R : Type) (a : regex)
    (prev : option ascii) (s : str) (k : option ascii -> str -> option R) :
  (forall p s', k p s' <> None) -> rmatch fl (Star a) prev s k <> None.
Proof.
  intros Hk. simpl. destruct (List.length s) as [|n]; [apply Hk|].
  match goal with |- match ?m with _ => _ end <> None => destruct m end;
    [discriminate | apply Hk].
Qed.

Lemma rmatch_seq (fl : flags) (R : Type) (a b : regex)
    (prev : option ascii) (s : str) (k : option ascii -> str -> option R) :
  rmatch fl (Seq a b) prev s k
  = rmatch fl a prev s (fun p' s' => rmatch fl b p' s' k).
Proof. reflexivity. Qed.

Lemma rmatch_sym (fl : flags) (R : Type) (its : list item)
    (prev : option ascii) (c : ascii) (s : str)
    (k : option ascii -> str -> option R) :
  rmatch fl (Sym its) prev (c :: s) k
  = if sym_ok fl its c then k (Some c) s else None.
Proof. reflexivity. Qed.

(** At a terminator the split pattern matches and consumes it. *)
Lemma terminator_matches (prev : option ascii) (c : ascii) (t : str) :
  is_terminator c = true ->
  exists p' s',
    match_here NOFLAGS (compile "[.!?]+") prev (c :: t) = Some (p', s')
    /\ (List.length s' <= List.length t)%nat.
Proof.
  intros Hc. rewrite terminator_pattern. unfold match_here.
  rewrite rmatch_seq, rmatch_sym, sym_ok_terminator, Hc.
  match goal with
  | |- exists p' s', ?m = _ /\ _ => destruct m as [[p' s']|] eqn:E
  end.
  - exists p', s'. split; [reflexivity|].
    apply rmatch_position in E. destruct E as [p1 [s1 [S E]]].
    inversion E; subst. apply suffix_length. exact S.
  - exfalso. revert E. apply star_never_fails. intros; discriminate.
Qed.

Lemma split_from_no_terminator (fuel : nat) :
  forall (prev : option ascii) (s cur : str),
    (List.length s < fuel)%nat -> no_terminator cur ->
    Forall no_terminator (split_from NOFLAGS (compile "[.!?]+") fuel prev s cur).
Proof.
  induction fuel as [|f IH]; intros prev s cur Hf Hcur; [lia|].
  destruct s as [|c t]; cbn [split_from].
  - constructor; [apply Forall_rev; exact Hcur | constructor].
  - simpl in Hf.
    destruct (is_terminator c) eqn:Hc.
    + destruct (@terminator_matches prev c t Hc) as [p' [s' [E Hl]]].
      rewrite E.
      assert ((List.length s' <? List.length (c :: t))%nat = true) as ->
        by (apply Nat.ltb_lt; simpl; lia).
      constructor; [apply Forall_rev; exact Hcur|].
      apply IH; [lia | constructor].
    + assert (no_terminator (c :: cur)) as Hcc by (constructor; assumption).
      destruct (match_here NOFLAGS (compile "[.!?]+") prev (c :: t))
        as [[p' s']|] eqn:E; [|apply IH; [lia | exact Hcc]].
      destruct (List.length s' <? List.length (c :: t))%nat eqn:L;
        [|apply IH; [lia | exact Hcc]].
      apply Nat.ltb_lt in L. simpl in L.
      constructor; [apply Forall_rev; exact Hcur|].
      apply IH; [lia | constructor].
Qed.

Lemma split_from_infix (fl : flags) (r : regex) (fuel : nat) :
  forall (prev : option ascii) (s cur : str),
    Forall (fun p => infix p (rev cur ++ s)) (split_from fl r fuel prev s cur).
Proof.
  induction fuel as [|f IH]; intros prev s cur; cbn [split_from].
  - constructor; [apply infix_refl | constructor].
  - destruct s as [|c t].
    + constructor; [|constructor]. rewrite app_nil_r. apply infix_refl.
    + assert (Forall (fun p => infix p (rev cur ++ c :: t))
                (split_from fl r f (Some c) t (c :: cur))) as Hpush.
      { specialize (IH (Some c) t (c :: cur)). simpl rev in IH.
        rewrite <- app_assoc in IH. exact IH. }
      destruct (match_here fl r prev (c :: t)) as [[p' s']|] eqn:E; [|exact Hpush].
      destruct (List.length s' <? List.length (c :: t))%nat; [|exact Hpush].
      constructor; [apply infix_app_l, infix_refl|].
      apply match_here_suffix in E.
      specialize (IH p' s' []). simpl in IH.
      eapply Forall_impl; [|exact IH].
      intros p Hp. apply infix_app_r.
      eapply infix_trans; [exact Hp | apply suffix_infix; exact E].
Qed.

(** What [_split_into_sentences] returns: trimmed, non-empty pieces of
    the text that hold no sentence terminator. *)
Lemma sentences_shape (t : str) :
  Forall (fun s => trimmed s /\ no_terminator s /\ infix s t)
         (_split_into_sentences t).
Proof.
  unfold _split_into_sentences.
  apply Forall_map, Forall_forall. intros x Hx.
  apply filter_In in Hx. destruct Hx as [Hin Hnb].
  assert (no_terminator x /\ infix x t) as [Hx1 Hx2].
  { unfold re_split in Hin. split.
    - pose proof (@split_from_no_terminator (S (List.length t)) None t []) as H.
      rewrite Forall_forall in H. apply H; [lia | constructor | exact Hin].
    - pose proof (split_from_infix NOFLAGS (compile "[.!?]+")
                    (S (List.length t)) None t []) as H.
      rewrite Forall_forall in H. apply (H x Hin). }
  split; [|split].
  - apply strip_trimmed. apply blank_false_strip.
    destruct (blank x); [discriminate | reflexivity].
  - eapply infix_Forall; [apply strip_infix | exact Hx1].
  - eapply infix_trans; [apply strip_infix | exact Hx2].
Qed.

End SentenceSplit.

(* ------------------------------------------------------------------ *)
(** ** Classification and confidence of a buffer *)
(* ------------------------------------------------------------------ *)

Section ClauseFields.

Lemma first_type_listed (groups : list (clause_type * list string)) (tl : str) :
  first_type groups tl = general \/ In (first_type groups tl) (map fst groups).
Proof.
  induction groups as [|[ty pats] groups IH]; simpl; [left; reflexivity|].
  destruct (existsb _ pats); [right; left; reflexivity|].
  destruct IH as [IH|IH]; [left; exact IH | right; right; exact IH].
Qed.

Lemma classify_not_unknown (s : str) : _classify_clause_type s <> unknown.
Proof.
  unfold _classify_clause_type.
  destruct (first_type_listed type_patterns (lower s)) as [H|H].
  - rewrite H. discriminate.
  - intros E. rewrite E in H. simpl in H.
    repeat (destruct H as [H|H]; [discriminate H|]). exact H.
Qed.

Lemma endswith_char (s : str) (c : ascii) :
  endswith s [c] = match rev s with x :: _ => Ascii.eqb c x | [] => false end.
Proof.
  unfold endswith. simpl rev. destruct (rev s) as [|x r]; simpl; [reflexivity|].
  apply andb_true_r.
Qed.

Lemma no_terminator_no_bonus (s : str) :
  no_terminator s ->
  existsb (fun suffix => endswith s (py suffix)) ["."; "!"; "?"]%string = false.
Proof.
  intros H. apply Forall_rev in H.
  cbn [existsb]. change (py ".") with ["."%char]. change (py "!") with ["!"%char].
  change (py "?") with ["?"%char]. rewrite !endswith_char.
  destruct (rev s) as [|x r]; [reflexivity|].
  inversion H as [|? ? Hx _]; subst. unfold is_terminator in Hx.
  rewrite orb_false_r, orb_assoc. exact Hx.
Qed.

(** The confidence in closed form: base, keyword bonus, length bonus and
    punctuation bonus, capped at 1. *)
Lemma confidence_closed_form (s : str) :
  _calculate_confidence s ==
    py_min 1.0
      (0.5
       + py_min 0.3
           (Qnat (sum_ones (fun keyword => contains (py keyword) (lower s))
                           legal_keywords) * 0.05)
       + (if (100 <? len s)%Z then 0.1 else if (50 <? len s)%Z then 0.05 else 0)
       + (if existsb (fun suffix => endswith s (py suffix)) ["."; "!"; "?"]%string
          then 0.1 else 0)).
Proof.
  unfold _calculate_confidence.
  set (k := py_min 0.3 _).
  assert (forall a b : Q, a == b -> py_min 1.0 a == py_min 1.0 b) as Hm.
  { intros a b E. unfold py_min, Qltb. rewrite E.
    destruct (b ?= 1.0); [reflexivity | exact E | reflexivity]. }
  apply Hm.
  destruct (100 <? len s)%Z; destruct (50 <? len s)%Z;
    destruct (existsb _ _); lra.
Qed.

Lemma confidence_range (s : str) : 0.5 <= _calculate_confidence s <= 1.
Proof.
  rewrite confidence_closed_form.
  set (n := sum_ones _ _). pose proof (Qnat_nonneg n) as Hn.
  destruct (py_min_cases 0.3 (Qnat n * 0.05)) as [[? ->]|[? ->]];
    match goal with
    | |- _ <= py_min 1.0 ?x <= _ =>
        destruct (py_min_cases 1.0 x) as [[K ->]|[K ->]]
    end;
    revert K;
    destruct (100 <? len s)%Z; destruct (50 <? len s)%Z;
    destruct (existsb _ _); intros K; lra.
Qed.

Lemma confidence_without_bonus (s : str) :
  no_terminator s -> _calculate_confidence s <= 0.9.
Proof.
  intros H. rewrite confidence_closed_form, (no_terminator_no_bonus H).
  set (n := sum_ones _ _). pose proof (Qnat_nonneg n) as Hn.
  destruct (py_min_cases 0.3 (Qnat n * 0.05)) as [[? ->]|[? ->]];
    match goal with
    | |- py_min 1.0 ?x <= _ =>
        destruct (py_min_cases 1.0 x) as [[K ->]|[K ->]]
    end;
    revert K;
    destruct (100 <? len s)%Z; destruct (50 <? len s)%Z; intros K; lra.
Qed.

Lemma make_clause_ok (t : str) (n : Z) (cur body : str) (start : Z) :
  trimmed body -> cur = body \/ cur = py " " ++ body ->
  no_terminator cur -> (0 <= start <= len t)%Z ->
  clause_ok t (make_clause n cur start).
Proof.
  intros Hb Hcur Hnt Hs.
  destruct (body_not_blank Hb Hcur) as [Hnb Hstrip].
  unfold clause_ok, make_clause. cbn [text start_index end_index type confidence].
  rewrite Hstrip. repeat split.
  - apply blank_false_strip. rewrite (trimmed_strip Hb). apply Hb.
  - apply trimmed_strip. exact Hb.
  - lia.
  - lia.
  - destruct Hcur as [-> | ->]; [left; lia|right].
    unfold len. change (py " " ++ body) with (" "%char :: body). simpl List.length. lia.
  - apply classify_not_unknown.
  - apply confidence_range.
  - apply confidence_without_bonus. exact Hnt.
Qed.

End ClauseFields.

(* ------------------------------------------------------------------ *)
(** ** The clauses the loop closes *)
(* ------------------------------------------------------------------ *)

Section SegmentShape.

Variable t : str.

Lemma space_no_terminator (a s : str) :
  no_terminator a -> no_terminator s -> no_terminator (a ++ py " " ++ s).
Proof.
  intros Ha Hs. apply Forall_app. split; [exact Ha|].
  constructor; [reflexivity | exact Hs].
Qed.

Lemma segment_step_shape (st : loop_state) (done : list str) (s : str) :
  trimmed s -> no_terminator s -> infix s t ->
  loop_shape t st done ->
  loop_shape t (segment_step t st s) (done ++ [s]).
Proof.
  intros Hs Hnt Hin [Htexts [Hok [Hstart [Hcur Hcount]]]].
  split; [apply segment_step_texts; assumption|].
  pose proof (find_infix Hin) as [Hfind _].
  assert (0 <= find t s <= len t)%Z as Hfind' by (unfold len in *; lia).
  unfold segment_step.
  destruct done as [|d done].
  - destruct Htexts as [Hc Hb]. rewrite Hb.
    change (blank []) with true. cbn [negb].
    destruct (_is_clause_start s);
      cbn [clauses current_clause cur_start_index]; rewrite ?Hc.
    + split; [constructor|]. split; [exact Hfind'|].
      split; [exact Hnt | reflexivity].
    + split; [constructor|]. split; [exact Hstart|].
      split; [apply space_no_terminator; [constructor | exact Hnt] | reflexivity].
  - destruct Htexts as [body [Hb [Hbuf Hj]]].
    destruct (body_not_blank Hb Hbuf) as [Hnb _].
    rewrite Hnb. cbn [negb].
    change (tl ((d :: done) ++ [s])) with (done ++ [s]).
    rewrite filter_app, length_app. cbn [filter tl] in *.
    destruct (_is_clause_start s);
      cbn [clauses current_clause cur_start_index List.length].
    + split; [|split; [exact Hfind'|split; [exact Hnt|]]].
      * apply Forall_app. split; [exact Hok|].
        constructor; [|constructor].
        apply make_clause_ok with (body := body); assumption.
      * rewrite length_app, Hcount. reflexivity.
    + split; [exact Hok|]. split; [exact Hstart|].
      split; [apply space_no_terminator; assumption | lia].
Qed.

Lemma fold_segment_shape (rest : list str) :
  Forall (fun s => trimmed s /\ no_terminator s /\ infix s t) rest ->
  forall (st : loop_state) (done : list str),
    loop_shape t st done ->
    loop_shape t (fold_left (segment_step t) rest st) (done ++ rest).
Proof.
  induction 1 as [|s rest [Hs [Hnt Hin]] _ IH]; intros st done Hinv; simpl.
  - rewrite app_nil_r. exact Hinv.
  - change (s :: rest) with ([s] ++ rest). rewrite app_assoc.
    apply IH. apply segment_step_shape; assumption.
Qed.

Lemma loop_end_shape :
  loop_shape t (fold_left (segment_step t) (_split_into_sentences t) loop_init)
             (_split_into_sentences t).
Proof.
  change (_split_into_sentences t) with ([] ++ _split_into_sentences t) at 2.
  apply fold_segment_shape; [apply sentences_shape|].
  split; [split; reflexivity|]. split; [constructor|].
  split; [simpl; unfold len; lia|]. split; [constructor | reflexivity].
Qed.

(** What [_segment_text] returns: with no sentence unit, one clause
    holding the whole text; otherwise the clauses the loop closed, one
    for the first sentence and one for each later sentence that opens a
    clause. *)
Lemma segment_text_shape :
  match _split_into_sentences t with
  | [] =>
      _segment_text t =
      [ {| id := 1; text := t; type := general;
           start_index := 0; end_index := len t; confidence := 0.5 |} ]
  | _ :: rest =>
      Forall (clause_ok t) (_segment_text t)
      /\ List.length (_segment_text t)
         = S (List.length (filter _is_clause_start rest))
  end.
Proof.
  pose proof loop_end_shape as [Htexts [Hok [Hstart [Hcur Hcount]]]].
  unfold _segment_text.
  set (st := fold_left _ _ _) in *.
  destruct (_split_into_sentences t) as [|s rest].
  - destruct Htexts as [Hc Hb]. rewrite Hb, Hc. reflexivity.
  - destruct Htexts as [body [Hb [Hbuf Hj]]].
    destruct (body_not_blank Hb Hbuf) as [Hnb _].
    rewrite Hnb. cbn [negb].
    destruct (clauses st ++ [_]) eqn:E; [destruct (clauses st); discriminate|].
    rewrite <- E. split.
    + apply Forall_app. split; [exact Hok|]. constructor; [|constructor].
      apply make_clause_ok with (body := body); assumption.
    + rewrite length_app, Hcount. simpl. lia.
Qed.

End SegmentShape.

(* ------------------------------------------------------------------ *)
(** ** Further properties of the segmenter *)
(* ------------------------------------------------------------------ *)

Section SegmenterProperties.

(** X1: the sentence units of a text are non-empty, trimmed, free of
    '.', '!' and '?', and occur in the text, so [text.find] locates each
    of them: its result is an offset of the text at which the unit
    starts, never -1. *)
Theorem sentence_units_are_located : forall t : str,
  Forall (fun s =>
            s <> []
            /\ strip s = s
            /\ Forall (fun c => c <> "."%char /\ c <> "!"%char /\ c <> "?"%char) s
            /\ (0 <= find t s <= len t - len s)%Z
            /\ starts_with s (skipn (Z.to_nat (find t s)) t) = true)
         (_split_into_sentences t).
Proof.
  intros t. eapply Forall_impl; [|apply sentences_shape].
  intros s [Hs [Hnt Hin]]. split; [apply Hs|]. split; [apply trimmed_strip, Hs|].
  split; [|apply find_infix; exact Hin].
  eapply Forall_impl; [|exact Hnt]. intros c Hc. unfold is_terminator in Hc.
  apply orb_false_iff in Hc. destruct Hc as [Hc H3].
  apply orb_false_iff in Hc. destruct Hc as [H1 H2].
  repeat split; intros ->; discriminate.
Qed.


Lemma segment_clauses_cases (o : outcome) (t : str) :
  segment_clauses o t = []
  \/ (blank t = false
      /\ exists ty q,
           segment_clauses o t =
           [ {| id := 1; text := t; type := ty;
                start_index := 0; end_index := len t; confidence := q |} ]
           /\ ((o = Returned /\ ty = general /\ q = 0.5)
               \/ (o = Raised /\ ty = unknown /\ q = 0.1)))
  \/ (o = Returned /\ Forall (clause_ok t) (segment_clauses o t)).
Proof.
  unfold segment_clauses. destruct (blank t) eqn:B; [left; reflexivity|].
  right. destruct o.
  - pose proof (segment_text_shape t) as H.
    destruct (_split_into_sentences t).
    + left. split; [reflexivity|]. exists general, 0.5. rewrite H. auto.
    + right. split; [reflexivity | apply H].
  - left. split; [reflexivity|]. exists unknown, 0.1. auto.
Qed.

(** X3: every clause has 0 <= start_index <= end_index with
    start_index inside the text, and end_index - start_index is the
    length of the clause text or one more (the buffer keeps a leading
    space when the first sentence opens no clause). *)
Theorem clause_spans_are_offsets : forall (o : outcome) (t : str),
  Forall (fun c =>
            (0 <= start_index c <= end_index c)%Z
            /\ (start_index c <= len t)%Z
            /\ (end_index c - start_index c = len (text c)
                \/ end_index c - start_index c = len (text c) + 1)%Z)
         (segment_clauses o t).
Proof.
  intros o t.
  destruct (segment_clauses_cases o t) as [E|[[_ [ty [q [E _]]]]|[_ H]]].
  - rewrite E. constructor.
  - rewrite E. constructor; [|constructor]. cbn. unfold len. lia.
  - eapply Forall_impl; [|exact H].
    intros c [_ [_ [Hs [Hd _]]]]. unfold len in *. lia.
Qed.

(** X4: every clause text is non-blank, and is trimmed unless it is the
    whole input; so the scorer never takes its blank-text branch on a
    clause of the segmenter. *)
Theorem clause_texts_never_blank : forall (o : outcome) (t : str),
  Forall (fun c =>
            blank (text c) = false
            /\ (text c = t \/ strip (text c) = text c)
            /\ risk_score (assess c) =
               if Qltb 0 (total_weight (text c))
               then py_min 1.0
                      ((total_score (text c)
                        + _calculate_additional_risk_factors (text c))
                       / total_weight (text c))
               else _calculate_additional_risk_factors (text c))
         (segment_clauses o t).
Proof.
  intros o t.
  assert (forall c, blank (text c) = false ->
            risk_score (assess c) =
            if Qltb 0 (total_weight (text c))
            then py_min 1.0
                   ((total_score (text c)
                     + _calculate_additional_risk_factors (text c))
                    / total_weight (text c))
            else _calculate_additional_risk_factors (text c)) as Hscore.
  { intros c Hb. destruct (assess_fields c) as [-> _].
    rewrite analyze_clause_risk_unfold, Hb. reflexivity. }
  destruct (segment_clauses_cases o t) as [E|[[B [ty [q [E _]]]]|[_ H]]].
  - rewrite E. constructor.
  - rewrite E. constructor; [|constructor].
    split; [exact B|]. split; [left; reflexivity | apply Hscore; exact B].
  - eapply Forall_impl; [|exact H].
    intros c [Hb [Hs _]]. split; [exact Hb|]. split; [right; exact Hs|].
    apply Hscore. exact Hb.
Qed.

(** X5: the confidence of any clause text lies between 0.5 and 1. *)
Theorem confidence_between_half_and_one : forall s : str,
  0.5 <= _calculate_confidence s <= 1.
Proof. exact confidence_range. Qed.

(** X6: a clause returned by the segmenter has confidence between 0.5
    and 0.9: the sentence split removes the terminators, so the bonus
    for closing punctuation is never given; the clause of the error
    handler has 0.1. *)
Theorem segmented_confidence_at_most_09 : forall (o : outcome) (t : str),
  Forall (fun c =>
            match o with
            | Returned => 0.5 <= confidence c <= 0.9
            | Raised => confidence c == 0.1
            end)
         (segment_clauses o t).
Proof.
  intros o t.
  destruct (segment_clauses_cases o t)
    as [E|[[_ [ty [q [E [[-> [_ ->]]|[-> [_ ->]]]]]]]|[-> H]]].
  - rewrite E. constructor.
  - rewrite E. constructor; [|constructor]. cbn. lra.
  - rewrite E. constructor; [|constructor]. cbn. reflexivity.
  - eapply Forall_impl; [|exact H]. intros c [_ [_ [_ [_ [_ Hq]]]]]. exact Hq.
Qed.

(** X7: a clause has type unknown exactly when it comes from the error
    handler; the classifier itself never answers unknown. *)
Theorem unknown_marks_degraded_result : forall (o : outcome) (t : str),
  (forall s : str, _classify_clause_type s <> unknown)
  /\ Forall (fun c => type c = unknown <-> o = Raised) (segment_clauses o t).
Proof.
  intros o t. split; [apply classify_not_unknown|].
  destruct (segment_clauses_cases o t)
    as [E|[[_ [ty [q [E [[-> [-> _]]|[-> [-> _]]]]]]]|[-> H]]].
  - rewrite E. constructor.
  - rewrite E. constructor; [|constructor]. cbn. split; discriminate.
  - rewrite E. constructor; [|constructor]. cbn. split; reflexivity.
  - eapply Forall_impl; [|exact H]. intros c [_ [_ [_ [_ [Hty _]]]]].
    split; [intros K; contradiction | discriminate].
Qed.

End SegmenterProperties.

(* ------------------------------------------------------------------ *)
(** ** Further properties of the classifier *)
(* ------------------------------------------------------------------ *)

Section ClassifierProperties.

Lemma first_type_general (groups : list (clause_type * list string)) (s : str) :
  ~ In general (map fst groups) ->
  (first_type groups (lower s) = general
   <-> forallb (fun entry => negb (entry_matches s entry)) groups = true).
Proof.
  induction groups as [|[ty pats] groups IH]; intros Hg; simpl; [tauto|].
  unfold entry_matches at 1. cbn [snd].
  destruct (existsb _ pats); cbn [negb andb].
  - split; [|discriminate]. intros E. exfalso. apply Hg. left. exact E.
  - apply IH. intros K. apply Hg. right. exact K.
Qed.

Lemma first_type_priority (groups : list (clause_type * list string)) (s : str) :
  forall (i : nat) (entry : clause_type * list string),
    nth_error groups i = Some entry -> entry_matches s entry = true ->
    In (first_type groups (lower s)) (map fst (firstn (S i) groups)).
Proof.
  induction groups as [|[ty pats] groups IH]; intros i entry Hn Hm.
  - destruct i; discriminate.
  - cbn [first_type]. destruct i as [|i].
    + inversion Hn; subst. unfold entry_matches in Hm. cbn [snd] in Hm.
      rewrite Hm. left. reflexivity.
    + destruct (existsb _ pats); [left; reflexivity|].
      right. apply (IH i entry); assumption.
Qed.

(** X8: the classifier answers general exactly when no group has a
    pattern in the clause; and when the group at some place of the table
    has one, the answer is that group or one placed before it. *)
Theorem classification_follows_priority : forall s : str,
  (_classify_clause_type s = general
   <-> forallb (fun entry => negb (entry_matches s entry)) type_patterns = true)
  /\ (forall (i : nat) (entry : clause_type * list string),
        nth_error type_patterns i = Some entry ->
        entry_matches s entry = true ->
        In (_classify_clause_type s) (map fst (firstn (S i) type_patterns))).
Proof.
  intros s. unfold _classify_clause_type. split.
  - apply first_type_general. simpl.
    intros H. repeat (destruct H as [H|H]; [discriminate H|]). exact H.
  - apply first_type_priority.
Qed.

End ClassifierProperties.

(* ------------------------------------------------------------------ *)
(** ** Further properties of the scorer *)
(* ------------------------------------------------------------------ *)

Section FactorNames.

Lemma factor_names_distinct : NoDup factor_names.
Proof.
  vm_compute.
  repeat (constructor; [simpl; intuition discriminate|]). constructor.
Qed.

(** The names of the checks that some test selects are distinct when the
    names of all the checks are. *)
Lemma selected_names_distinct (checks : list (string * string))
    (selected : string * string -> bool) :
  NoDup (map (fun check => py (fst check)) checks) ->
  NoDup (map (fun check => py (fst check)) (filter selected checks)).
Proof.
  intros Hall. induction checks as [|check checks IH]; [exact Hall|].
  apply NoDup_cons_iff in Hall. destruct Hall as [Hnew Hold].
  cbn [filter]. destruct (selected check); [|exact (IH Hold)].
  cbn [map]. apply NoDup_cons_iff. split; [|exact (IH Hold)].
  contradict Hnew. apply in_map_iff in Hnew.
  destruct Hnew as [other [Hname Hother]].
  apply in_map_iff. exists other.
  split; [exact Hname | exact (proj1 (proj1 (filter_In _ _ _) Hother))].
Qed.

(** X9: the risk factors of a clause are distinct names out of the ten
    of [risk_checks]. *)
Theorem risk_factors_from_fixed_names : forall s : str,
  NoDup (_identify_risk_factors s)
  /\ incl (_identify_risk_factors s) factor_names
  /\ (List.length (_identify_risk_factors s) <= 10)%nat
  /\ List.length factor_names = 10%nat.
Proof.
  intros s. unfold _identify_risk_factors. split; [|split; [|split]].
  - apply selected_names_distinct. apply factor_names_distinct.
  - intros x Hx. apply in_map_iff in Hx. destruct Hx as [y [E Hy]].
    apply filter_In in Hy. unfold factor_names. apply in_map_iff.
    exists y. split; [exact E | apply Hy].
  - rewrite length_map.
    eapply Nat.le_trans; [apply filter_length_le | simpl; lia].
  - reflexivity.
Qed.

End FactorNames.

Section Explanation.

Lemma starts_with_prefix (sub s b : str) :
  starts_with sub s = true -> starts_with sub (s ++ b) = true.
Proof.
  revert s. induction sub as [|c sub IH]; intros s H; [reflexivity|].
  destruct s as [|d s]; [discriminate|]. simpl in *.
  apply andb_true_iff in H. destruct H as [H1 H2].
  rewrite H1. simpl. apply IH. exact H2.
Qed.

Lemma starts_with_refl (s : str) : starts_with s s = true.
Proof.
  rewrite <- (app_nil_r s) at 2. apply starts_with_app.
Qed.

Lemma contains_app_r (sub a b : str) :
  contains sub b = true -> contains sub (a ++ b) = true.
Proof.
  intros H. induction a as [|c a IH]; [exact H|].
  simpl. rewrite IH. apply orb_true_r.
Qed.

Lemma contains_app_l (sub a b : str) :
  contains sub a = true -> contains sub (a ++ b) = true.
Proof.
  induction a as [|c a IH]; intros H.
  - destruct sub; [|discriminate H]. destruct b; reflexivity.
  - change (contains sub ((c :: a) ++ b))
      with (starts_with sub ((c :: a) ++ b) || contains sub (a ++ b)).
    change (contains sub (c :: a))
      with (starts_with sub (c :: a) || contains sub a) in H.
    apply orb_true_iff in H. destruct H as [H|H].
    + rewrite (@starts_with_prefix sub (c :: a) b H). reflexivity.
    + rewrite (IH H). apply orb_true_r.
Qed.

Lemma contains_refl (s : str) : contains s s = true.
Proof. destruct s; simpl; [reflexivity|]. rewrite Ascii.eqb_refl, starts_with_refl. reflexivity. Qed.

Lemma contains_join (f : str) (fs : list str) :
  In f fs -> contains f (join (py ", ") fs) = true.
Proof.
  induction fs as [|x fs IH]; intros H; [contradiction|].
  destruct fs as [|y fs].
  - destruct H as [->|[]]. apply contains_refl.
  - change (join (py ", ") (x :: y :: fs))
      with (x ++ py ", " ++ join (py ", ") (y :: fs)).
    destruct H as [->|H].
    + apply contains_app_l, contains_refl.
    + apply contains_app_r, contains_app_r, IH. exact H.
Qed.

(** X10: an explanation opens with the sentence of its level, names
    every risk factor it is given, and tells the level: explanations of
    different levels differ. *)
Theorem explanation_names_level_and_factors :
  forall (l1 l2 : level) (fs1 fs2 : list str),
    starts_with (base_explanation l1) (_generate_risk_explanation l1 fs1) = true
    /\ Forall (fun f => contains f (_generate_risk_explanation l1 fs1) = true) fs1
    /\ (l1 = l2
        \/ _generate_risk_explanation l1 fs1 <> _generate_risk_explanation l2 fs2).
Proof.
  intros l1 l2 fs1 fs2. split; [|split].
  - unfold base_explanation, _generate_risk_explanation.
    destruct fs1; [apply starts_with_refl | apply starts_with_app].
  - apply Forall_forall. intros f Hf.
    unfold _generate_risk_explanation. destruct fs1 as [|x fs]; [contradiction|].
    apply contains_app_r, contains_app_r, contains_app_l, contains_join. exact Hf.
  - destruct l1, l2; try (left; reflexivity); right; intros H;
      apply (f_equal (firstn 25)) in H;
      destruct fs1, fs2; vm_compute in H; discriminate H.
Qed.

End Explanation.

Section ScorePositive.

Lemma score_step_keeps_positive (t tl : str) (acc : Q * Q) (entry : level * group) :
  0 < weight (snd entry) ->
  0 <= fst acc /\ 0 <= snd acc ->
  (0 < fst acc /\ 0 < snd acc)
  \/ (count_matches (compiled_patterns (snd entry)) tl =? 0)%nat = false ->
  0 < fst (score_step t tl acc entry) /\ 0 < snd (score_step t tl acc entry).
Proof.
  intros Hw [Hs Ht] H. unfold score_step. destruct acc as [ts tw].
  set (m := count_matches _ _) in *. set (w := Nat.max 1 _).
  assert (1 <= w)%nat as Hw1 by (unfold w; lia).
  clearbody m w. cbn [fst snd] in *.
  assert (0 < Qnat w) as Hqw.
  { unfold Qnat. replace 0 with (inject_Z 0) by reflexivity.
    rewrite <- Zlt_Qlt. lia. }
  destruct (0 <? m)%nat eqn:E; cbn [fst snd].
  - apply Nat.ltb_lt in E.
    assert (0 < Qnat m) as Hqm.
    { unfold Qnat. replace 0 with (inject_Z 0) by reflexivity.
      rewrite <- Zlt_Qlt. lia. }
    assert (0 < Qnat m / Qnat w) as Hd.
    { apply Qlt_shift_div_l; [exact Hqw | lra]. }
    assert (0 < Qnat m / Qnat w * weight (snd entry)) as Hp.
    { apply Qmult_lt_0_compat; assumption. }
    split; lra.
  - destruct H as [H|H]; [exact H|].
    apply Nat.ltb_ge in E. apply Nat.eqb_neq in H. lia.
Qed.

Lemma fold_score_step_positive (t tl : str) (groups : list (level * group)) :
  Forall (fun entry => 0 < weight (snd entry)) groups ->
  forall acc,
    0 <= fst acc /\ 0 <= snd acc ->
    (0 < fst acc /\ 0 < snd acc)
    \/ forallb (fun entry =>
                  (count_matches (compiled_patterns (snd entry)) tl =? 0)%nat)
               groups = false ->
    0 < fst (fold_left (score_step t tl) groups acc)
    /\ 0 < snd (fold_left (score_step t tl) groups acc).
Proof.
  induction 1 as [|entry groups Hw Hall IH]; intros acc Hacc Hm; simpl.
  - destruct Hm as [Hm|Hm]; [exact Hm | discriminate Hm].
  - apply IH.
    + apply score_step_nonneg; [lra | exact Hacc].
    + simpl in Hm.
      destruct (count_matches (compiled_patterns (snd entry)) tl =? 0)%nat eqn:E.
      * destruct Hm as [Hm|Hm]; [|right; exact Hm].
        left. apply score_step_keeps_positive; auto.
      * left. apply score_step_keeps_positive; auto.
Qed.

Lemma risk_weights_positive :
  Forall (fun entry => 0 < weight (snd entry)) risk_patterns.
Proof. repeat constructor; simpl; lra. Qed.

Lemma matched_totals_positive (t : str) :
  no_pattern_matches t = false -> 0 < total_score t /\ 0 < total_weight t.
Proof.
  intros H. unfold total_score, total_weight, pattern_totals.
  apply fold_score_step_positive;
    [apply risk_weights_positive | simpl; lra | right; exact H].
Qed.

(** X11: a non-blank clause scores 0 exactly when no weighted pattern
    matches it and it earns no additional adjustment; any pattern match
    gives a positive score. *)
Theorem risk_score_zero_iff : forall t : str,
  blank t = false ->
  (_analyze_clause_risk t == 0
   <-> no_pattern_matches t = true /\ _calculate_additional_risk_factors t == 0).
Proof.
  intros t Hb. rewrite analyze_clause_risk_unfold, Hb.
  pose proof (additional_range t) as Ha.
  destruct (no_pattern_matches t) eqn:N.
  - unfold total_weight. rewrite (unmatched_totals t N). cbn [snd].
    change (Qltb 0 0.0) with false. cbv iota. tauto.
  - destruct (matched_totals_positive t N) as [Hs Hw].
    assert (Qltb 0 (total_weight t) = true) as -> by (apply Qltb_true; exact Hw).
    split; [|intros [K _]; discriminate K].
    intros H. exfalso.
    assert (0 < (total_score t + _calculate_additional_risk_factors t)
                / total_weight t) as Hx.
    { apply Qlt_shift_div_l; [exact Hw | lra]. }
    revert H.
    match goal with
    | |- py_min 1.0 ?x == 0 -> _ =>
        destruct (py_min_cases 1.0 x) as [[? ->]|[? ->]]
    end; intros Hzero; lra.
Qed.

Lemma risk_score_zero_iff_witness :
  blank (py "generally never") = false
  /\ (_analyze_clause_risk (py "generally never") == 0
      <-> no_pattern_matches (py "generally never") = true
          /\ _calculate_additional_risk_factors (py "generally never") == 0).
Proof.
  split; [reflexivity|].
  apply (risk_score_zero_iff (py "generally never")). reflexivity.
Defined.

End ScorePositive.

Section SingleGroup.

Lemma score_step_by_level (t : str) (acc : Q * Q) (lvl : level) (g : group) :
  In (lvl, g) risk_patterns ->
  score_step t (lower t) acc (lvl, g) =
    if (0 <? matches_of lvl t)%nat
    then (fst acc + density lvl t * weight (group_of lvl),
          snd acc + weight (group_of lvl))
    else acc.
Proof.
  intros H. destruct acc as [ts tw].
  simpl in H. destruct H as [H|[H|[H|[]]]]; inversion H; subst; reflexivity.
Qed.

Lemma pattern_totals_by_level (t : str) :
  pattern_totals t =
    fold_left (fun acc lvl =>
                 if (0 <? matches_of lvl t)%nat
                 then (fst acc + density lvl t * weight (group_of lvl),
                       snd acc + weight (group_of lvl))
                 else acc)
              [high; medium; low] (0.0, 0.0).
Proof.
  unfold pattern_totals, risk_patterns. cbn [fold_left].
  rewrite !score_step_by_level by (simpl; auto). reflexivity.
Qed.

(** X12: when the patterns of only one group match a non-blank clause,
    the weight of the group cancels out of the pattern component, which
    is the number of matches per word; the weight only divides the
    additional adjustments. *)
Theorem single_group_weight_cancels : forall (t : str) (lvl : level),
  blank t = false ->
  (0 < matches_of lvl t)%nat ->
  (forall l' : level, l' <> lvl -> matches_of l' t = 0%nat) ->
  total_weight t == weight (group_of lvl)
  /\ pattern_component t == density lvl t
  /\ _analyze_clause_risk t ==
     py_min 1.0 (density lvl t
                 + _calculate_additional_risk_factors t / weight (group_of lvl)).
Proof.
  intros t lvl Hb Hm Hz.
  assert (0 < weight (group_of lvl)) as Hw by (destruct lvl; vm_compute; reflexivity).
  assert (pattern_totals t
          = (0.0 + density lvl t * weight (group_of lvl), 0.0 + weight (group_of lvl)))
    as Ht.
  { rewrite pattern_totals_by_level. cbn [fold_left].
    apply Nat.ltb_lt in Hm.
    destruct lvl;
      repeat match goal with
             | |- context [(0 <? matches_of ?l t)%nat] =>
                 first [ rewrite Hm
                       | rewrite (Hz l) by discriminate;
                         change (0 <? 0)%nat with false ]; cbv iota
             end; reflexivity. }
  assert (total_weight t == weight (group_of lvl)) as Htw.
  { unfold total_weight. rewrite Ht. cbn [snd]. lra. }
  assert (total_score t == density lvl t * weight (group_of lvl)) as Hts.
  { unfold total_score. rewrite Ht. cbn [fst]. lra. }
  assert (Qltb 0 (total_weight t) = true) as Hpos.
  { apply Qltb_true. rewrite Htw. exact Hw. }
  split; [exact Htw|]. split.
  - unfold pattern_component. rewrite Hpos, Hts, Htw. field. lra.
  - rewrite analyze_clause_risk_unfold, Hb, Hpos.
    assert (forall a b : Q, a == b -> py_min 1.0 a == py_min 1.0 b) as Hmin.
    { intros a b E. unfold py_min, Qltb. rewrite E.
      destruct (b ?= 1.0); [reflexivity | exact E | reflexivity]. }
    apply Hmin. rewrite Hts, Htw. field. lra.
Qed.

Lemma single_group_weight_cancels_witness :
  blank (py "generally never") = false
  /\ (0 < matches_of low (py "generally never"))%nat
  /\ (total_weight (py "generally never") == weight (group_of low)
      /\ pattern_component (py "generally never") == density low (py "generally never")
      /\ _analyze_clause_risk (py "generally never") ==
         py_min 1.0 (density low (py "generally never")
                     + _calculate_additional_risk_factors (py "generally never")
                       / weight (group_of low))).
Proof.
  split; [reflexivity|]. split; [vm_compute; lia|].
  apply (@single_group_weight_cancels (py "generally never") low).
  - reflexivity.
  - vm_compute. lia.
  - intros l' Hl. destruct l'; [vm_compute; reflexivity | vm_compute; reflexivity|].
    exfalso. apply Hl. reflexivity.
Defined.

End SingleGroup.

(* ------------------------------------------------------------------ *)
(** ** The fallback scores *)
(* ------------------------------------------------------------------ *)

Section MockScores.

Lemma mock_level_cases (s : Q) :
  (0.7 <= s
   /\ mock_level s = (high, py "#ff4444",
                      [py "Unlimited Liability"; py "Automatic Termination"]))
  \/ (0.4 <= s < 0.7
      /\ mock_level s = (medium, py "#ffaa00",
                         [py "Payment Default"; py "Confidentiality Breach"]))
  \/ (s < 0.4 /\ mock_level s = (low, py "#44aa44", [py "Standard Terms"])).
Proof.
  unfold mock_level.
  destruct (Qgeb s 0.7) eqn:E1.
  - left. apply Qgeb_true in E1. auto.
  - apply Qgeb_false in E1. destruct (Qgeb s 0.4) eqn:E2.
    + right. left. apply Qgeb_true in E2. auto.
    + right. right. apply Qgeb_false in E2. auto.
Qed.

(** Rounding to two places does not cross a multiple of 0.01. *)
Lemma round2_lower (x : Q) (k : Z) :
  inject_Z k <= x * 100 -> inject_Z k <= round2 x * 100.
Proof.
  intros Hy. unfold round2.
  set (y := x * 100) in *. set (f := Qfloor y).
  assert (k <= f)%Z as Hkf.
  { rewrite <- (Qfloor_Z k). apply Qfloor_resp_le. exact Hy. }
  assert (forall n : Z, (f <= n)%Z -> inject_Z k <= inject_Z n / 100 * 100) as Hn.
  { intros n Hfn. assert (inject_Z n / 100 * 100 == inject_Z n) as -> by field.
    rewrite <- Zle_Qle. lia. }
  destruct (y - inject_Z f ?= 0.5); [destruct (Z.even f)| |]; apply Hn; lia.
Qed.

Lemma round2_upper (x : Q) (k : Z) :
  x * 100 <= inject_Z k -> round2 x * 100 <= inject_Z k.
Proof.
  intros Hy. unfold round2.
  set (y := x * 100) in *. set (f := Qfloor y).
  pose proof (Qfloor_le y) as Hf. fold f in Hf.
  assert (forall n : Z, (n <= k)%Z -> inject_Z n / 100 * 100 <= inject_Z k) as Hn.
  { intros n Hnk. assert (inject_Z n / 100 * 100 == inject_Z n) as -> by field.
    rewrite <- Zle_Qle. lia. }
  assert (f <= k)%Z as Hfk.
  { rewrite Zle_Qle. lra. }
  assert (inject_Z f < y -> (f + 1 <= k)%Z) as Hstep.
  { intros Hlt. assert (inject_Z f < inject_Z k) as K by lra.
    rewrite <- Zlt_Qlt in K. lia. }
  destruct (y - inject_Z f ?= 0.5) eqn:E.
  - apply Qeq_alt in E. destruct (Z.even f); apply Hn; [lia|].
    apply Hstep. lra.
  - apply Hn. lia.
  - apply Qgt_alt in E. apply Hn. apply Hstep. lra.
Qed.

Lemma mock_cons (g : rng) (c : clause) (rest : list clause) :
  _generate_mock_risk_scores g (c :: rest) =
    let u := 0.1 + (0.9 - 0.1) * g 0%nat in
    let after := _generate_mock_risk_scores (fun n => g (S n)) rest in
    ({| Risk.clause_id := id c;
        risk_score := round2 u;
        risk_level := fst (fst (mock_level u));
        color := snd (fst (mock_level u));
        risk_factors := snd (mock_level u);
        explanation :=
          _generate_risk_explanation (fst (fst (mock_level u))) (snd (mock_level u)) |}
       :: fst after,
     snd after).
Proof.
  cbn [_generate_mock_risk_scores uniform].
  destruct (mock_level _) as [[l col] fs].
  destruct (_generate_mock_risk_scores _ rest). reflexivity.
Qed.

(** The fallback: one assessment per clause, each score a draw moved
    into the interval from 0.1 to 0.9 and rounded, level, colour and
    factors fixed by the draw, one draw per clause. *)
Lemma mock_scores_shape (clauses : list clause) :
  forall g : rng,
    (forall n : nat, 0 <= g n <= 1) ->
    Forall (fun a =>
              0.1 <= risk_score a <= 0.9
              /\ ((risk_level a = high /\ 0.7 <= risk_score a
                   /\ color a = py "#ff4444"
                   /\ risk_factors a
                      = [py "Unlimited Liability"; py "Automatic Termination"])
                  \/ (risk_level a = medium /\ 0.4 <= risk_score a <= 0.7
                      /\ color a = py "#ffaa00"
                      /\ risk_factors a
                         = [py "Payment Default"; py "Confidentiality Breach"])
                  \/ (risk_level a = low /\ risk_score a <= 0.4
                      /\ color a = py "#44aa44"
                      /\ risk_factors a = [py "Standard Terms"])))
           (fst (_generate_mock_risk_scores g clauses))
    /\ (forall n : nat,
          snd (_generate_mock_risk_scores g clauses) n
          = g (List.length clauses + n)%nat).
Proof.
  induction clauses as [|c rest IH]; intros g Hg.
  - split; [constructor | reflexivity].
  - rewrite mock_cons. cbv zeta. cbn [fst snd].
    destruct (IH (fun n => g (S n)) (fun n => Hg (S n))) as [IH1 IH2].
    split; [|intros n; rewrite IH2; reflexivity].
    constructor; [|exact IH1]. cbn [risk_score risk_level color risk_factors].
    set (u := 0.1 + (0.9 - 0.1) * g 0%nat).
    assert (0.1 <= u <= 0.9) as Hu by (unfold u; specialize (Hg 0%nat); lra).
    assert (10 <= u * 100) as Hu10 by lra. assert (u * 100 <= 90) as Hu90 by lra.
    pose proof (@round2_lower u 10) as L10. pose proof (@round2_upper u 90) as U90.
    pose proof (@round2_lower u 70) as L70. pose proof (@round2_upper u 70) as U70.
    pose proof (@round2_lower u 40) as L40. pose proof (@round2_upper u 40) as U40.
    change (inject_Z 10) with 10 in L10. change (inject_Z 90) with 90 in U90.
    change (inject_Z 70) with 70 in L70, U70.
    change (inject_Z 40) with 40 in L40, U40.
    assert (0.1 <= round2 u <= 0.9) as Hr by (split; [apply L10 in Hu10 | apply U90 in Hu90]; lra).
    split; [exact Hr|].
    destruct (mock_level_cases u) as [[H E]|[[H E]|[H E]]]; rewrite E; cbn [fst snd].
    + left. repeat split. assert (70 <= round2 u * 100) by (apply L70; lra). lra.
    + right. left. repeat split.
      * assert (40 <= round2 u * 100) by (apply L40; lra). lra.
      * assert (round2 u * 100 <= 70) by (apply U70; lra). lra.
    + right. right. repeat split.
      assert (round2 u * 100 <= 40) by (apply U40; lra). lra.
Qed.

Lemma mock_scores_ids (clauses : list clause) :
  forall g : rng,
    map Risk.clause_id (fst (_generate_mock_risk_scores g clauses)) = map id clauses.
Proof.
  induction clauses as [|c rest IH]; intros g; [reflexivity|].
  rewrite mock_cons. cbv zeta. cbn [fst map Risk.clause_id]. rewrite IH. reflexivity.
Qed.

(** X13: the fallback gives every clause a score between 0.1 and 0.9
    when the generator draws from the unit interval; the level comes
    from the draw before rounding, so the printed score is at least 0.7
    for high, between 0.4 and 0.7 for medium and at most 0.4 for low;
    colour and factors are the canned ones of the level; and the
    generator moves on by one draw per clause. *)
Theorem mock_scores_within_bounds : forall (clauses : list clause) (g : rng),
  (forall n : nat, 0 <= g n <= 1) ->
  Forall (fun a =>
            0.1 <= risk_score a <= 0.9
            /\ ((risk_level a = high /\ 0.7 <= risk_score a
                 /\ color a = py "#ff4444"
                 /\ risk_factors a
                    = [py "Unlimited Liability"; py "Automatic Termination"])
                \/ (risk_level a = medium /\ 0.4 <= risk_score a <= 0.7
                    /\ color a = py "#ffaa00"
                    /\ risk_factors a
                       = [py "Payment Default"; py "Confidentiality Breach"])
                \/ (risk_level a = low /\ risk_score a <= 0.4
                    /\ color a = py "#44aa44"
                    /\ risk_factors a = [py "Standard Terms"])))
         (fst (calculate_risk_scores Raised g clauses))
  /\ (forall n : nat,
        snd (calculate_risk_scores Raised g clauses) n
        = g (List.length clauses + n)%nat).
Proof.
  intros clauses g Hg. apply mock_scores_shape. exact Hg.
Qed.

Lemma mock_scores_within_bounds_witness :
  (forall n : nat, 0 <= (fun _ : nat => 0.5) n <= 1)
  /\ (Forall (fun a =>
                0.1 <= risk_score a <= 0.9
                /\ ((risk_level a = high /\ 0.7 <= risk_score a
                     /\ color a = py "#ff4444"
                     /\ risk_factors a
                        = [py "Unlimited Liability"; py "Automatic Termination"])
                    \/ (risk_level a = medium /\ 0.4 <= risk_score a <= 0.7
                        /\ color a = py "#ffaa00"
                        /\ risk_factors a
                           = [py "Payment Default"; py "Confidentiality Breach"])
                    \/ (risk_level a = low /\ risk_score a <= 0.4
                        /\ color a = py "#44aa44"
                        /\ risk_factors a = [py "Standard Terms"])))
             (fst (calculate_risk_scores Raised (fun _ : nat => 0.5)
                     (segment_clauses Returned (py "a. b"))))
      /\ (forall n : nat,
            snd (calculate_risk_scores Raised (fun _ : nat => 0.5)
                   (segment_clauses Returned (py "a. b"))) n
            = (fun _ : nat => 0.5)
                (List.length (segment_clauses Returned (py "a. b")) + n)%nat)).
Proof.
  assert (forall n : nat, 0 <= (fun _ : nat => 0.5) n <= 1) as Hg
    by (intros n; cbv beta; split; vm_compute; discriminate).
  split; [exact Hg|].
  exact (@mock_scores_within_bounds
           (segment_clauses Returned (py "a. b")) (fun _ : nat => 0.5) Hg).
Defined.

End MockScores.

(* ------------------------------------------------------------------ *)
(** ** Clauses and assessments side by side *)
(* ------------------------------------------------------------------ *)

Section Pairing.

Lemma assess_clause_id (c : clause) : Risk.clause_id (assess c) = id c.
Proof. unfold assess. destruct (level_and_color _). reflexivity. Qed.

Lemma calculate_risk_scores_ids (o : outcome) (g : rng) (clauses : list clause) :
  map Risk.clause_id (fst (calculate_risk_scores o g clauses)) = map id clauses.
Proof.
  destruct o; cbn [calculate_risk_scores fst].
  - unfold _calculate_risks. rewrite map_map. apply map_ext. apply assess_clause_id.
  - apply mock_scores_ids.
Qed.

Lemma segment_clauses_ids (o : outcome) (t : str) :
  map id (segment_clauses o t)
  = map Z.of_nat (seq 1 (List.length (segment_clauses o t))).
Proof.
  unfold segment_clauses. destruct (blank t); [reflexivity|].
  destruct o; [apply segment_text_ids | reflexivity].
Qed.

Lemma analyze_parts (o_seg o_risk : outcome) (g : rng) (t : str) :
  fst (analyze o_seg o_risk g t)
  = (segment_clauses o_seg t,
     fst (calculate_risk_scores o_risk g (segment_clauses o_seg t))).
Proof.
  unfold analyze. destruct (calculate_risk_scores _ _ _). reflexivity.
Qed.

(** X14: whichever way the two stages end, the analysis numbers its
    clauses 1, 2, ... and returns one assessment per clause, in the same
    order and with the clause's id. *)
Theorem analysis_pairs_clauses_and_assessments :
  forall (o_seg o_risk : outcome) (g : rng) (t : str),
    let result := fst (analyze o_seg o_risk g t) in
    map id (fst result) = map Z.of_nat (seq 1 (List.length (fst result)))
    /\ map Risk.clause_id (snd result) = map id (fst result)
    /\ List.length (snd result) = List.length (fst result).
Proof.
  intros o_seg o_risk g t. cbv zeta. rewrite analyze_parts. cbn [fst snd].
  split; [apply segment_clauses_ids|].
  pose proof (calculate_risk_scores_ids o_risk g (segment_clauses o_seg t)) as H.
  split; [exact H|].
  apply (f_equal (@List.length Z)) in H. rewrite !length_map in H. exact H.
Qed.

Lemma find_by_id (rs : list assessment) :
  NoDup (map Risk.clause_id rs) ->
  map (fun r => clause_risk rs (Risk.clause_id r)) rs = map Some rs.
Proof.
  unfold clause_risk.
  induction rs as [|r rs IH]; intros H; [reflexivity|].
  inversion H as [|? ? Hr Hrs]; subst.
  cbn [map List.find]. rewrite Z.eqb_refl. f_equal.
  rewrite <- (IH Hrs). apply map_ext_in. intros r' Hr'.
  destruct (Risk.clause_id r =? Risk.clause_id r')%Z eqn:E; [|reflexivity].
  exfalso. apply Hr. apply Z.eqb_eq in E. rewrite E.
  apply in_map. exact Hr'.
Qed.

Lemma ids_distinct (n : nat) : NoDup (map Z.of_nat (seq 1 n)).
Proof.
  generalize (seq_NoDup n 1). generalize (seq 1 n). intros l.
  induction 1 as [|a l Ha Hl IH]; simpl; constructor; [|exact IH].
  intros K. apply in_map_iff in K. destruct K as [b [E Hb]].
  apply Nat2Z.inj in E. subst. exact (Ha Hb).
Qed.

(** X15: in the report, the look-up of a clause's assessment by clause
    id finds, for each of the (at most ten) clauses shown, the
    assessment at the same place of the list of risk scores; with
    computed scores that is the assessment of that very clause. *)
Theorem report_finds_each_clause_risk :
  forall (o_seg o_risk : outcome) (g : rng) (t : str),
    let result := fst (analyze o_seg o_risk g t) in
    map (fun c => clause_risk (snd result) (id c)) (shown_clauses (fst result))
    = map Some (firstn 10 (snd result))
    /\ map (fun c => clause_risk (_calculate_risks (fst result)) (id c))
           (shown_clauses (fst result))
       = map (fun c => Some (assess c)) (shown_clauses (fst result)).
Proof.
  intros o_seg o_risk g t. cbv zeta.
  assert (forall cs rs,
            map Risk.clause_id rs = map id cs ->
            NoDup (map id cs) ->
            map (fun c => clause_risk rs (id c)) (firstn 10 cs)
            = map Some (firstn 10 rs)) as Hpair.
  { intros cs rs Hids Hnd.
    rewrite <- !firstn_map. f_equal.
    rewrite <- (map_map id (clause_risk rs) cs), <- Hids, map_map.
    apply find_by_id. rewrite Hids. exact Hnd. }
  assert (NoDup (map id (segment_clauses o_seg t))) as Hnd.
  { rewrite segment_clauses_ids. apply ids_distinct. }
  rewrite analyze_parts. cbn [fst snd]. unfold shown_clauses. split.
  - apply Hpair; [apply calculate_risk_scores_ids | exact Hnd].
  - rewrite (Hpair (segment_clauses o_seg t)
               (_calculate_risks (segment_clauses o_seg t)));
      [|apply (calculate_risk_scores_ids Returned g) | exact Hnd].
    unfold _calculate_risks. rewrite firstn_map, map_map. reflexivity.
Qed.

(** X16: the report never prints more than ten clauses and accounts for
    the others in its closing line; a clause text of more than 300
    characters is cut to its first 300 followed by a 15-character mark,
    a shorter one is printed whole; the factors cell never exceeds 53
    characters. *)
Theorem report_truncation_bounds :
  forall (clauses : list clause) (s : str) (a : assessment),
    (List.length (shown_clauses clauses) <= 10)%nat
    /\ (Z.of_nat (List.length (shown_clauses clauses))
        + match more_clauses clauses with Some n => n | None => 0 end
        = Z.of_nat (List.length clauses))%Z
    /\ (if (300 <? len s)%Z
        then shown_text s = firstn 300 s ++ py "... [truncated]"
             /\ len (shown_text s) = 315%Z
        else shown_text s = s)
    /\ (len (factors_cell a) <= 53)%Z.
Proof.
  intros clauses s a. unfold shown_clauses, more_clauses, shown_text, factors_cell, len.
  rewrite length_firstn. split; [lia|]. split; [|split].
  - destruct (10 <? Z.of_nat (List.length clauses))%Z eqn:E.
    + apply Z.ltb_lt in E. lia.
    + apply Z.ltb_ge in E. lia.
  - destruct (300 <? Z.of_nat (List.length s))%Z eqn:E; [|reflexivity].
    apply Z.ltb_lt in E. split; [reflexivity|].
    rewrite length_app, length_firstn. simpl List.length. lia.
  - destruct (50 <? Z.of_nat (List.length (join (py ", ") (risk_factors a))))%Z eqn:E.
    + rewrite length_app, length_firstn. simpl List.length. lia.
    + apply Z.ltb_ge in E. lia.
Qed.

End Pairing.

(* ------------------------------------------------------------------ *)
(** ** The order of the clauses *)
(* ------------------------------------------------------------------ *)

Section UnitPlaces.

Lemma starts_with_split (p s : str) :
  starts_with p s = true -> exists r, s = p ++ r.
Proof.
  revert s. induction p as [|a p IH]; intros s H; [exists s; reflexivity|].
  destruct s as [|b s]; [discriminate H|]. simpl in H.
  apply andb_true_iff in H. destruct H as [Hab Hps].
  apply Ascii.eqb_eq in Hab. subst b.
  destruct (IH s Hps) as [r ->]. exists r. reflexivity.
Qed.

Lemma occurs_at_app (pre sub post : str) :
  occurs_at sub (pre ++ sub ++ post) (List.length pre) = true.
Proof.
  unfold occurs_at. rewrite skipn_app, skipn_all, Nat.sub_diag. simpl.
  apply starts_with_app.
Qed.

(** A part of something read at [i] is read further on. *)
Lemma occurs_at_inner (a y z t : str) (i : nat) :
  occurs_at (a ++ y ++ z) t i = true ->
  occurs_at y t (i + List.length a) = true.
Proof.
  unfold occurs_at. intros H. apply starts_with_split in H. destruct H as [r E].
  rewrite Nat.add_comm, <- skipn_skipn, E.
  rewrite <- !app_assoc, skipn_app, skipn_all, Nat.sub_diag. simpl.
  apply starts_with_app.
Qed.

Lemma in_order_from (t : str) (places : list (nat * str)) (from from' : nat) :
  (from' <= from)%nat -> in_order t from places -> in_order t from' places.
Proof.
  destruct places as [|place rest]; [trivial|].
  intros Hle [Hfrom Hrest]. split; [lia | exact Hrest].
Qed.

Lemma in_order_In (t : str) (places : list (nat * str)) :
  forall from place,
    in_order t from places -> In place places ->
    (from <= fst place)%nat /\ occurs_at (snd place) t (fst place) = true.
Proof.
  induction places as [|first rest IH]; intros from place Hord Hin; [contradiction|].
  destruct Hord as [Hfrom [Hocc Hrest]]. destruct Hin as [->|Hin]; [auto|].
  destruct (IH _ _ Hrest Hin) as [Hle Hat]. split; [lia | exact Hat].
Qed.

(** The pieces of [split_at] are those of [re.split]. *)
Lemma split_at_pieces (fl : flags) (r : regex) (fuel : nat) :
  forall (prev : option ascii) (s cur : str) (pos : nat),
    map snd (split_at fl r fuel prev s cur pos) = split_from fl r fuel prev s cur.
Proof.
  induction fuel as [|f IH]; intros prev s cur pos; [reflexivity|].
  cbn [split_at split_from]. destruct s as [|c t]; [reflexivity|].
  destruct (match_here fl r prev (c :: t)) as [[p' s']|]; [|apply IH].
  destruct (List.length s' <? List.length (c :: t))%nat; [|apply IH].
  cbn [map snd]. rewrite IH. reflexivity.
Qed.

(** Each piece begins at the offset kept with it, and the pieces follow
    one another. *)
Lemma split_at_in_order (fl : flags) (r : regex) (t : str) (fuel : nat) :
  forall (prev : option ascii) (s cur pre : str),
    t = pre ++ rev cur ++ s ->
    in_order t (List.length pre)
             (split_at fl r fuel prev s cur (List.length pre + List.length cur)).
Proof.
  assert (forall pre cur s, t = pre ++ rev cur ++ s ->
            in_order t (List.length pre)
                     [((List.length pre + List.length cur - List.length cur)%nat,
                       rev cur ++ s)]) as Hlast.
  { intros pre cur s ->. cbn [in_order fst snd].
    replace (List.length pre + List.length cur - List.length cur)%nat
      with (List.length pre) by lia.
    split; [lia|]. split; [|exact I].
    replace (pre ++ rev cur ++ s) with (pre ++ (rev cur ++ s) ++ [])
      by (rewrite app_nil_r; reflexivity).
    apply occurs_at_app. }
  induction fuel as [|f IH]; intros prev s cur pre E; cbn [split_at].
  - apply Hlast. exact E.
  - destruct s as [|c s0].
    + specialize (Hlast pre cur [] E). rewrite app_nil_r in Hlast. exact Hlast.
    + assert (in_order t (List.length pre)
                (split_at fl r f (Some c) s0 (c :: cur)
                   (S (List.length pre + List.length cur)))) as Hpush.
      { replace (S (List.length pre + List.length cur))
          with (List.length pre + List.length (c :: cur))%nat by (simpl; lia).
        apply IH. rewrite E. simpl rev. rewrite <- !app_assoc. reflexivity. }
      destruct (match_here fl r prev (c :: s0)) as [[p' s']|] eqn:M; [|exact Hpush].
      destruct (List.length s' <? List.length (c :: s0))%nat; [|exact Hpush].
      apply match_here_suffix in M. destruct M as [eaten M].
      cbn [in_order fst snd].
      replace (List.length pre + List.length cur - List.length cur)%nat
        with (List.length pre) by lia.
      split; [lia|]. split; [rewrite E; apply occurs_at_app|].
      apply in_order_from with (from := List.length (pre ++ rev cur ++ eaten)).
      { rewrite !length_app. lia. }
      replace (List.length pre + List.length cur
               + (List.length (c :: s0) - List.length s'))%nat
        with (List.length (pre ++ rev cur ++ eaten) + List.length (@nil ascii))%nat.
      * apply IH. rewrite E, M. simpl rev. rewrite <- !app_assoc. reflexivity.
      * rewrite M, !length_app, length_rev. simpl. lia.
Qed.

Lemma strip_parts (x : str) :
  exists a z,
    x = a ++ strip x ++ z
    /\ List.length a = (List.length x - List.length (lstrip x))%nat.
Proof.
  destruct (lstrip_suffix x) as [a Ea].
  destruct (lstrip_suffix (rev (lstrip x))) as [z Ez].
  exists a, (rev z). split.
  - unfold strip, rstrip. rewrite <- rev_app_distr, <- Ez, rev_involutive. exact Ea.
  - apply (f_equal (@List.length ascii)) in Ea. rewrite length_app in Ea. lia.
Qed.

Lemma in_order_kept (t : str) (keep : nat * str -> bool) (places : list (nat * str)) :
  forall from, in_order t from places -> in_order t from (filter keep places).
Proof.
  induction places as [|place rest IH]; intros from Hord; [exact I|].
  destruct Hord as [Hfrom [Hocc Hrest]]. cbn [filter].
  destruct (keep place).
  - split; [exact Hfrom|]. split; [exact Hocc | apply IH; exact Hrest].
  - apply IH. apply in_order_from with (from := (fst place + List.length (snd place))%nat);
      [lia | exact Hrest].
Qed.

Lemma in_order_trimmed (t : str) (places : list (nat * str)) :
  forall from,
    in_order t from places ->
    in_order t from
      (map (fun piece =>
              ((fst piece
                + (List.length (snd piece) - List.length (lstrip (snd piece))))%nat,
               strip (snd piece)))
           places).
Proof.
  induction places as [|[p x] rest IH]; intros from Hord; [exact I|].
  destruct Hord as [Hfrom [Hocc Hrest]]. cbn [fst snd] in *.
  destruct (strip_parts x) as [a [z [Ex Ha]]].
  cbn [map in_order fst snd]. rewrite <- Ha.
  split; [lia|]. split.
  - rewrite Ex in Hocc. apply occurs_at_inner in Hocc. exact Hocc.
  - apply IH. apply in_order_from with (from := (p + List.length x)%nat); [|exact Hrest].
    apply (f_equal (@List.length ascii)) in Ex. rewrite !length_app in Ex. lia.
Qed.

Lemma sentence_places_in_order (t : str) : in_order t 0 (sentence_places t).
Proof.
  unfold sentence_places. apply in_order_trimmed, in_order_kept.
  apply (@split_at_in_order NOFLAGS (compile "[.!?]+") t (S (List.length t))
           None t [] []).
  reflexivity.
Qed.

(** The units of the places are the sentence units, in the same order. *)
Lemma sentence_places_units (t : str) :
  map snd (sentence_places t) = _split_into_sentences t.
Proof.
  unfold sentence_places, _split_into_sentences, re_split.
  rewrite <- split_at_pieces with (pos := 0%nat).
  rewrite filter_map_swap, !map_map. reflexivity.
Qed.

(** [find] answers the offset at which the text is first read. *)
Lemma find_from_first (sub : str) (p : nat) :
  forall (t : str) (i : Z),
    occurs_at sub t p = true ->
    (forall j, (j < p)%nat -> occurs_at sub t j = false) ->
    find_from sub t i = (i + Z.of_nat p)%Z.
Proof.
  induction p as [|p IH]; intros t i Hat Hbefore.
  - unfold occurs_at in Hat. simpl in Hat.
    destruct t; simpl; simpl in Hat; rewrite Hat; lia.
  - assert (starts_with sub t = false) as Hnot by (apply (Hbefore 0%nat); lia).
    destruct t as [|c t].
    + unfold occurs_at in Hat. simpl in Hat. congruence.
    + simpl find_from. rewrite Hnot.
      rewrite (IH t (i + 1)%Z); [lia | exact Hat |].
      intros j Hj. apply (Hbefore (S j)). lia.
Qed.

Lemma no_earlier_copy_find (t : str) :
  no_earlier_copy t = true ->
  forall place,
    In place (sentence_places t) -> _is_clause_start (snd place) = true ->
    find t (snd place) = Z.of_nat (fst place).
Proof.
  intros H place Hin Hstart. unfold no_earlier_copy in H.
  rewrite forallb_forall in H. specialize (H place Hin).
  rewrite Hstart in H. simpl in H. rewrite forallb_forall in H.
  pose proof (sentence_places_in_order t) as Hord.
  eapply in_order_In in Hord; [|exact Hin]. destruct Hord as [_ Hat].
  unfold find. rewrite (@find_from_first (snd place) (fst place) t 0%Z Hat); [lia|].
  intros j Hj. specialize (H j). rewrite in_seq in H.
  apply negb_true_iff. apply H. lia.
Qed.

End UnitPlaces.

Section SegmentOrder.

Lemma nondecreasing_snoc (l : list Z) (a : Z) :
  nondecreasing l = true -> Forall (fun x => (x <= a)%Z) l ->
  nondecreasing (l ++ [a]) = true.
Proof.
  induction l as [|x l IH]; intros Hl Ha; [reflexivity|].
  destruct l as [|y l].
  - inversion Ha; subst. simpl. rewrite andb_true_r. apply Z.leb_le. assumption.
  - change (nondecreasing (x :: y :: l)) with ((x <=? y)%Z && nondecreasing (y :: l)) in Hl.
    change (nondecreasing ((x :: y :: l) ++ [a]))
      with ((x <=? y)%Z && nondecreasing ((y :: l) ++ [a])).
    apply andb_true_iff in Hl. destruct Hl as [Hxy Hl]. rewrite Hxy. simpl andb.
    apply IH; [exact Hl|]. inversion Ha; assumption.
Qed.

Lemma lstrip_spaces_app (a b : str) : lstrip a = [] -> lstrip (a ++ b) = lstrip b.
Proof.
  induction a as [|c a IH]; simpl; [reflexivity|].
  destruct (isspace c); [exact IH | discriminate].
Qed.

(** Trimming a buffer leaves the unit that opened it in front. *)
Lemma strip_keeps_opening (s rest : str) :
  trimmed s -> starts_with s (strip (s ++ rest)) = true.
Proof.
  intros [Hs [Hl Hr]]. unfold strip.
  rewrite lstrip_app by (rewrite Hl; exact Hs). rewrite Hl.
  destruct (rstrip rest) eqn:E.
  - apply rstrip_nil_iff in E. unfold rstrip. rewrite rev_app_distr.
    rewrite lstrip_spaces_app by exact E.
    fold (rstrip s). rewrite Hr. apply starts_with_refl.
  - rewrite rstrip_app by (rewrite E; discriminate). apply starts_with_app.
Qed.

Lemma sentence_places_trimmed (t : str) (place : nat * str) :
  In place (sentence_places t) -> trimmed (snd place).
Proof.
  intros Hin. pose proof (sentences_trimmed t) as H.
  rewrite Forall_forall in H. apply H.
  rewrite <- sentence_places_units. apply in_map. exact Hin.
Qed.

(** Closing the buffer keeps the clauses in order, and the clause that
    is closed starts where its opening unit stands. *)
Lemma close_clause_order (t : str) (st : loop_state) (bound : nat) :
  loop_order t st bound ->
  nondecreasing
    (map start_index
       (clauses st ++ [make_clause (Segmentation.clause_id st) (current_clause st)
                         (cur_start_index st)])) = true
  /\ Forall (opens_at t)
       (clauses st ++ [make_clause (Segmentation.clause_id st) (current_clause st)
                         (cur_start_index st)]).
Proof.
  intros [Hnd [Hle [_ [Hopen Hcur]]]]. split.
  - rewrite map_app. apply nondecreasing_snoc; [exact Hnd|].
    apply Forall_map. exact Hle.
  - apply Forall_app. split; [exact Hopen|]. constructor; [|constructor].
    destruct Hcur as [[Hid Hzero]|[place [rest [Hin [Hstart [Hat Hbuf]]]]]].
    + left. split; [exact Hid | exact Hzero].
    + right. exists place. split; [exact Hin|]. split; [exact Hstart|].
      split; [exact Hat|]. cbn [Segmentation.text make_clause]. rewrite Hbuf.
      apply strip_keeps_opening. eapply sentence_places_trimmed. exact Hin.
Qed.

Lemma segment_step_order (t : str) (st : loop_state) (bound : nat) (place : nat * str) :
  In place (sentence_places t) ->
  (bound <= fst place)%nat ->
  (_is_clause_start (snd place) = true -> find t (snd place) = Z.of_nat (fst place)) ->
  loop_order t st bound ->
  loop_order t (segment_step t st (snd place)) (fst place + List.length (snd place)).
Proof.
  intros Hin Hbound Hfind Hinv.
  pose proof (close_clause_order Hinv) as [Hnd' Hopen'].
  destruct Hinv as [Hnd [Hle [Hb [Hopen Hcur]]]].
  unfold segment_step. destruct (_is_clause_start (snd place)) eqn:B.
  - rewrite (Hfind eq_refl).
    assert (exists place0 rest,
              In place0 (sentence_places t)
              /\ _is_clause_start (snd place0) = true
              /\ Z.of_nat (fst place) = Z.of_nat (fst place0)
              /\ snd place = snd place0 ++ rest) as Hnew.
    { exists place, []. rewrite app_nil_r. auto. }
    destruct (negb (blank (current_clause st))); unfold loop_order;
      cbn [clauses current_clause cur_start_index Segmentation.clause_id].
    + split; [exact Hnd'|]. split.
      { apply Forall_app. split.
        - eapply Forall_impl; [|exact Hle]. cbv beta. intros c Hc. lia.
        - constructor; [|constructor]. cbn [start_index make_clause]. lia. }
      split; [lia|]. split; [exact Hopen' | right; exact Hnew].
    + split; [exact Hnd|]. split.
      { eapply Forall_impl; [|exact Hle]. cbv beta. intros c Hc. lia. }
      split; [lia|]. split; [exact Hopen | right; exact Hnew].
  - unfold loop_order.
    cbn [clauses current_clause cur_start_index Segmentation.clause_id].
    split; [exact Hnd|]. split; [exact Hle|]. split; [lia|]. split; [exact Hopen|].
    destruct Hcur as [Hfirst|[place0 [rest [Hin0 [Hstart [Hat Hbuf]]]]]];
      [left; exact Hfirst|].
    right. exists place0, (rest ++ py " " ++ snd place).
    rewrite Hbuf, <- app_assoc. auto.
Qed.

Lemma fold_segment_order (t : str) :
  (forall place, In place (sentence_places t) ->
                 _is_clause_start (snd place) = true ->
                 find t (snd place) = Z.of_nat (fst place)) ->
  forall (rest : list (nat * str)) (bound : nat) (st : loop_state),
    (forall place, In place rest -> In place (sentence_places t)) ->
    in_order t bound rest ->
    loop_order t st bound ->
    exists bound',
      loop_order t (fold_left (segment_step t) (map snd rest) st) bound'.
Proof.
  intros Hfind. induction rest as [|place rest IH]; intros bound st Hsub Hord Hinv.
  - exists bound. exact Hinv.
  - destruct Hord as [Hfrom [_ Hrest]]. cbn [map fold_left].
    apply (IH (fst place + List.length (snd place))%nat).
    + intros x Hx. apply Hsub. right. exact Hx.
    + exact Hrest.
    + apply segment_step_order with (bound := bound);
        [apply Hsub; left; reflexivity | exact Hfrom | | exact Hinv].
      apply Hfind. apply Hsub. left. reflexivity.
Qed.

Lemma segment_text_order (t : str) :
  no_earlier_copy t = true ->
  nondecreasing (map start_index (_segment_text t)) = true
  /\ Forall (opens_at t) (_segment_text t).
Proof.
  intros H. unfold _segment_text. rewrite <- sentence_places_units.
  destruct (@fold_segment_order t (no_earlier_copy_find t H)
              (sentence_places t) 0%nat loop_init)
    as [bound Hinv].
  - auto.
  - apply sentence_places_in_order.
  - split; [reflexivity|]. split; [constructor|]. split; [simpl; lia|].
    split; [constructor | left; split; reflexivity].
  - set (st := fold_left _ _ _) in *.
    pose proof (close_clause_order Hinv) as Hclosed.
    destruct Hinv as [Hnd [_ [_ [Hopen _]]]].
    destruct (negb (blank (current_clause st))).
    + destruct (clauses st ++ [_]) eqn:E; [destruct (clauses st); discriminate|].
      exact Hclosed.
    + destruct (clauses st) eqn:E.
      * split; [reflexivity|]. constructor; [|constructor].
        left. split; reflexivity.
      * split; [exact Hnd | exact Hopen].
Qed.

(** C2, amended: for every input text and either outcome of the
    segmentation call, the clauses returned are numbered 1, 2, ... in
    output order, and their texts joined by single spaces are the
    trimmed sentence units of the source joined by single spaces (the
    source itself when it has no sentence unit or the call failed); a
    blank input has no clauses.  Whenever no sentence unit that opens a
    clause is also read in the text before the place where it stands,
    the clauses are in non-decreasing start_index order, and each clause
    after a first one that starts at 0 starts at the place of the unit
    that opens it.  The units stand in the text one after another at
    their places. *)
Theorem segment_order_and_sentence_texts : forall (o : outcome) (t : str),
  let cs := segment_clauses o t in
  map id cs = map Z.of_nat (seq 1 (List.length cs))
  /\ (if blank t then cs = []
      else join (py " ") (map text cs) =
           match o, _split_into_sentences t with
           | Returned, _ :: _ => join (py " ") (_split_into_sentences t)
           | _, _ => t
           end)
  /\ (map snd (sentence_places t) = _split_into_sentences t
      /\ in_order t 0 (sentence_places t))
  /\ (no_earlier_copy t = true ->
      nondecreasing (map start_index cs) = true /\ Forall (opens_at t) cs).
Proof.
  intros o t. cbv zeta. unfold segment_clauses.
  split; [|split; [|split; [split|]]].
  - destruct (blank t); [reflexivity|].
    destruct o; [apply segment_text_ids | reflexivity].
  - destruct (blank t); [reflexivity|]. destruct o; [|reflexivity].
    rewrite segment_text_texts. destruct (_split_into_sentences t); reflexivity.
  - apply sentence_places_units.
  - apply sentence_places_in_order.
  - intros H. destruct (blank t); [split; [reflexivity | constructor]|].
    destruct o; [apply segment_text_order; exact H|].
    split; [reflexivity|]. constructor; [|constructor].
    left. split; reflexivity.
Qed.

(** The text with the repeated heading is not among those the order is
    stated for: its second heading has an earlier copy. *)
Lemma segment_order_and_sentence_texts_witness :
  no_earlier_copy repeated_heading_text = false
  /\ no_earlier_copy numbered_text = true
  /\ nondecreasing (map start_index (segment_clauses Returned numbered_text)) = true
  /\ Forall (opens_at numbered_text) (segment_clauses Returned numbered_text).
Proof.
  split; [reflexivity|]. split; [reflexivity|].
  apply (segment_order_and_sentence_texts Returned numbered_text). reflexivity.
Defined.

End SegmentOrder.

(* ------------------------------------------------------------------ *)
(** ** Letter case, level order and keyword tests *)
(* ------------------------------------------------------------------ *)

Section LetterCase.

Lemma lower_char_idem (c : ascii) : lower_char (lower_char c) = lower_char c.
Proof. destruct c as [[] [] [] [] [] [] [] []]; reflexivity. Qed.

Lemma isspace_lower_char (c : ascii) : isspace (lower_char c) = isspace c.
Proof. destruct c as [[] [] [] [] [] [] [] []]; reflexivity. Qed.

Lemma terminator_lower_char (c : ascii) :
  is_terminator (lower_char c) = is_terminator c.
Proof. destruct c as [[] [] [] [] [] [] [] []]; reflexivity. Qed.

Lemma lower_idem (t : str) : lower (lower t) = lower t.
Proof. unfold lower. rewrite map_map. apply map_ext, lower_char_idem. Qed.

Lemma len_lower (t : str) : len (lower t) = len t.
Proof. unfold len, lower. rewrite length_map. reflexivity. Qed.

Lemma blank_lower (t : str) : blank (lower t) = blank t.
Proof.
  rewrite !blank_all_space. unfold lower.
  induction t as [|c t IH]; simpl; [reflexivity|].
  rewrite isspace_lower_char, IH. reflexivity.
Qed.

Lemma count_words_lower (inw : bool) (t : str) :
  count_words inw (lower t) = count_words inw t.
Proof.
  revert inw. induction t as [|c t IH]; intros inw; simpl; [reflexivity|].
  rewrite isspace_lower_char, !IH. reflexivity.
Qed.

Lemma fold_left_same {A B : Type} (f g : A -> B -> A) (l : list B) :
  (forall a b, f a b = g a b) -> forall a, fold_left f l a = fold_left g l a.
Proof.
  intros H. induction l as [|b l IH]; intros a; simpl; [reflexivity|].
  rewrite H. apply IH.
Qed.

Lemma pattern_totals_lower (t : str) : pattern_totals (lower t) = pattern_totals t.
Proof.
  unfold pattern_totals. rewrite lower_idem. apply fold_left_same.
  intros [ts tw] entry. unfold score_step, word_count.
  rewrite count_words_lower. reflexivity.
Qed.

Lemma additional_lower (t : str) :
  _calculate_additional_risk_factors (lower t) = _calculate_additional_risk_factors t.
Proof.
  unfold _calculate_additional_risk_factors. rewrite lower_idem, len_lower. reflexivity.
Qed.

Lemma analyze_clause_risk_lower (t : str) :
  _analyze_clause_risk (lower t) = _analyze_clause_risk t.
Proof.
  unfold _analyze_clause_risk.
  rewrite blank_lower, pattern_totals_lower, additional_lower. reflexivity.
Qed.

Lemma endswith_terminator_lower (t : str) (c : ascii) :
  is_terminator c = true -> endswith (lower t) [c] = endswith t [c].
Proof.
  intros Hc. rewrite !endswith_char. unfold lower. rewrite <- map_rev.
  destruct (rev t) as [|x r]; [reflexivity|]. cbn [map].
  revert Hc. destruct c as [[] [] [] [] [] [] [] []]; try discriminate; intros _;
    destruct x as [[] [] [] [] [] [] [] []]; reflexivity.
Qed.

Lemma confidence_lower (t : str) :
  _calculate_confidence (lower t) = _calculate_confidence t.
Proof.
  unfold _calculate_confidence. rewrite lower_idem, len_lower.
  cbn [existsb]. change (py ".") with ["."%char]. change (py "!") with ["!"%char].
  change (py "?") with ["?"%char].
  rewrite !endswith_terminator_lower by reflexivity. reflexivity.
Qed.

(** X17: two clause texts of characters below U+0100 that differ only
    in letter case get the same risk score, the same risk factors, the
    same type and the same confidence.  (Not so beyond that range:
    [str.lower] turns U+0130 into two characters, which changes the
    length the scorer and the confidence read.) *)
Theorem scoring_ignores_letter_case : forall a b : str,
  lower a = lower b ->
  _analyze_clause_risk a = _analyze_clause_risk b
  /\ _identify_risk_factors a = _identify_risk_factors b
  /\ _classify_clause_type a = _classify_clause_type b
  /\ _calculate_confidence a = _calculate_confidence b.
Proof.
  intros a b H. split; [|split; [|split]].
  - rewrite <- (analyze_clause_risk_lower a), <- (analyze_clause_risk_lower b), H.
    reflexivity.
  - unfold _identify_risk_factors. rewrite H. reflexivity.
  - unfold _classify_clause_type. rewrite H. reflexivity.
  - rewrite <- (confidence_lower a), <- (confidence_lower b), H. reflexivity.
Qed.

Lemma scoring_ignores_letter_case_witness :
  lower (py "This FINAL Notice.") = lower (py "this final NOTICE.")
  /\ (_analyze_clause_risk (py "This FINAL Notice.")
      = _analyze_clause_risk (py "this final NOTICE.")
      /\ _identify_risk_factors (py "This FINAL Notice.")
         = _identify_risk_factors (py "this final NOTICE.")
      /\ _classify_clause_type (py "This FINAL Notice.")
         = _classify_clause_type (py "this final NOTICE.")
      /\ _calculate_confidence (py "This FINAL Notice.")
         = _calculate_confidence (py "this final NOTICE.")).
Proof.
  split; [reflexivity|].
  apply (@scoring_ignores_letter_case
           (py "This FINAL Notice.") (py "this final NOTICE.")).
  reflexivity.
Defined.

End LetterCase.

Section LevelOrder.

(** X18: the risk level never falls when the score rises. *)
Theorem level_is_monotone : forall a b : Q,
  a <= b ->
  (level_rank (fst (level_and_color a)) <= level_rank (fst (level_and_color b)))%nat.
Proof.
  intros a b H.
  destruct (level_and_color_cases a) as [[Ha ->]|[[Ha ->]|[Ha ->]]];
  destruct (level_and_color_cases b) as [[Hb ->]|[[Hb ->]|[Hb ->]]];
    cbn [fst level_rank]; try lia; lra.
Qed.

Lemma level_is_monotone_witness :
  0.3 <= 0.8
  /\ (level_rank (fst (level_and_color 0.3))
      <= level_rank (fst (level_and_color 0.8)))%nat.
Proof.
  assert (0.3 <= 0.8) as H by (vm_compute; discriminate).
  split; [exact H|]. exact (@level_is_monotone 0.3 0.8 H).
Defined.

End LevelOrder.

Section KeywordTests.

Lemma starts_with_shorter (a b s : str) :
  starts_with (a ++ b) s = true -> starts_with a s = true.
Proof.
  revert s. induction a as [|c a IH]; intros s H; [reflexivity|].
  destruct s as [|d s]; [discriminate H|]. simpl in *.
  apply andb_true_iff in H. destruct H as [H1 H2].
  rewrite H1. simpl. apply IH. exact H2.
Qed.

Lemma contains_shorter (a b s : str) :
  contains (a ++ b) s = true -> contains a s = true.
Proof.
  induction s as [|d s IH]; intros H.
  - simpl in *. rewrite orb_false_r in *. eapply starts_with_shorter; eauto.
  - change (contains (a ++ b) (d :: s))
      with (starts_with (a ++ b) (d :: s) || contains (a ++ b) s) in H.
    change (contains a (d :: s)) with (starts_with a (d :: s) || contains a s).
    apply orb_true_iff in H. destruct H as [H|H].
    + rewrite (starts_with_shorter _ _ _ H). reflexivity.
    + rewrite (IH H). apply orb_true_r.
Qed.

(** X19: keywords are looked for as substrings, so "no" is found
    wherever "not", "nor" or "none" is: a clause that holds one of these
    gets additional adjustments of at least 0.1. *)
Theorem not_counts_twice : forall t : str,
  existsb (fun word => contains (py word) (lower t)) ["not"; "nor"; "none"]%string
  = true ->
  contains (py "no") (lower t) = true
  /\ (2 <= keywords_present negation_words t)%nat
  /\ 0.1 <= _calculate_additional_risk_factors t.
Proof.
  intros t H.
  assert (contains (py "no") (lower t) = true) as Hno.
  { cbn [existsb] in H. rewrite orb_false_r in H.
    apply orb_true_iff in H. destruct H as [H|H];
      [|apply orb_true_iff in H; destruct H as [H|H]].
    - apply (contains_shorter (py "no") (py "t")). exact H.
    - apply (contains_shorter (py "no") (py "r")). exact H.
    - apply (contains_shorter (py "no") (py "ne")). exact H. }
  assert (2 <= keywords_present negation_words t)%nat as H2.
  { unfold keywords_present, negation_words. cbn [filter].
    rewrite Hno. cbn [existsb] in H. rewrite orb_false_r in H.
    destruct (contains (py "not") (lower t));
      destruct (contains (py "never") (lower t));
      destruct (contains (py "none") (lower t));
      destruct (contains (py "neither") (lower t));
      destruct (contains (py "nor") (lower t));
      destruct (contains (py "without") (lower t));
      destruct (contains (py "unless") (lower t));
      simpl in *; try lia; discriminate H. }
  split; [exact Hno|]. split; [exact H2|].
  rewrite additional_closed_form, !sum_ones_length.
  fold (keywords_present negation_words t).
  pose proof (length_bonus_range t) as HL.
  set (n1 := keywords_present negation_words t) in *.
  set (n2 := List.length _). set (n3 := List.length _).
  pose proof (Qnat_nonneg n2). pose proof (Qnat_nonneg n3).
  assert (2 <= Qnat n1) as Hq.
  { unfold Qnat. replace 2 with (inject_Z 2) by reflexivity.
    rewrite <- Zle_Qle. lia. }
  destruct (py_min_cases 0.2 (Qnat n1 * 0.05)) as [[? ->]|[? ->]];
  destruct (py_min_cases 0.15 (Qnat n2 * 0.03)) as [[? ->]|[? ->]];
  destruct (py_min_cases 0.1 (Qnat n3 * 0.05)) as [[? ->]|[? ->]]; lra.
Qed.

Lemma not_counts_twice_witness :
  existsb (fun word => contains (py word) (lower (py "Shall NOT assign")))
          ["not"; "nor"; "none"]%string = true
  /\ (contains (py "no") (lower (py "Shall NOT assign")) = true
      /\ (2 <= keywords_present negation_words (py "Shall NOT assign"))%nat
      /\ 0.1 <= _calculate_additional_risk_factors (py "Shall NOT assign")).
Proof.
  split; [reflexivity|].
  apply (@not_counts_twice (py "Shall NOT assign")). reflexivity.
Defined.

End KeywordTests.

(* ------------------------------------------------------------------ *)
(** ** Boundary patterns and letter case *)
(* ------------------------------------------------------------------ *)

Section BoundaryCase.

Variable fl : flags.
Hypothesis fl_ignorecase : ignorecase fl = true.

Lemma case_variants (c : ascii) :
  (upper_char (lower_char c) = c /\ upper_char c = c)
  \/ lower_char c = c.
Proof. destruct c as [[] [] [] [] [] [] [] []]; auto. Qed.

Lemma sym_ok_lower (its : list item) (c : ascii) :
  sym_ok fl its (lower_char c) = sym_ok fl its c.
Proof.
  unfold sym_ok. rewrite fl_ignorecase. induction its as [|it its IH]; [reflexivity|].
  cbn [existsb]. rewrite IH. f_equal. cbn [andb].
  rewrite lower_char_idem.
  destruct (case_variants c) as [[E1 E2]|E].
  - rewrite E1, E2.
    destruct (item_ok it (lower_char c)); destruct (item_ok it c); reflexivity.
  - rewrite E. reflexivity.
Qed.

Lemma isword_lower_char (c : ascii) : isword (lower_char c) = isword c.
Proof. destruct c as [[] [] [] [] [] [] [] []]; reflexivity. Qed.

Lemma newline_lower_char (c : ascii) :
  Ascii.eqb (lower_char c) "010" = Ascii.eqb c "010".
Proof. destruct c as [[] [] [] [] [] [] [] []]; reflexivity. Qed.

Lemma at_bol_lower (prev : option ascii) :
  at_bol fl (option_map lower_char prev) = at_bol fl prev.
Proof.
  destruct prev as [c|]; [|reflexivity]. simpl. rewrite newline_lower_char. reflexivity.
Qed.

Lemma word_at_lower (o : option ascii) :
  word_at (option_map lower_char o) = word_at o.
Proof. destruct o as [c|]; [apply isword_lower_char | reflexivity]. Qed.

(** Matching a lower-cased input goes as matching the input itself. *)
Lemma rmatch_lower (R : Type) (r : regex) :
  forall (prev : option ascii) (s : str) (k k' : option ascii -> str -> option R),
    (forall p' s', k' (option_map lower_char p') (lower s') = k p' s') ->
    rmatch fl r (option_map lower_char prev) (lower s) k' = rmatch fl r prev s k.
Proof.
  induction r as [|its| | |a IHa b IHb|a IHa b IHb|a IHa|a IHa];
    intros prev s k k' Hk.
  - apply Hk.
  - destruct s as [|c s]; [reflexivity|]. cbn [lower map rmatch].
    rewrite sym_ok_lower. destruct (sym_ok fl its c); [|reflexivity].
    apply (Hk (Some c) s).
  - cbn [rmatch]. rewrite at_bol_lower. destruct (at_bol fl prev); [apply Hk | reflexivity].
  - cbn [rmatch]. rewrite word_at_lower.
    assert (hd_error (lower s) = option_map lower_char (hd_error s)) as ->
      by (destruct s; reflexivity).
    rewrite word_at_lower. destruct (xorb _ _); [apply Hk | reflexivity].
  - cbn [rmatch]. apply IHa. intros p' s'. apply IHb. exact Hk.
  - cbn [rmatch]. rewrite (IHa prev s k k' Hk), (IHb prev s k k' Hk). reflexivity.
  - cbn [rmatch]. unfold lower at 1. rewrite length_map.
    generalize (List.length s). intros n. revert prev s.
    induction n as [|n IHn]; intros prev s; [apply Hk|].
    rewrite (IHa prev s
               (fun p' s' =>
                  if (List.length s' <? List.length s)%nat
                  then (fix loop (n : nat) (p : option ascii) (s0 : str) {struct n}
                          : option R :=
                          match n with
                          | O => k p s0
                          | S n' =>
                              match rmatch fl a p s0
                                      (fun p' s' =>
                                         if (List.length s' <? List.length s0)%nat
                                         then loop n' p' s' else None) with
                              | Some x => Some x
                              | None => k p s0
                              end
                          end) n p' s'
                  else None)).
    + rewrite Hk. reflexivity.
    + intros p' s'. unfold lower. rewrite !length_map.
      destruct (List.length s' <? List.length s)%nat; [apply IHn | reflexivity].
  - cbn [rmatch]. rewrite (IHa prev s k k' Hk), Hk. reflexivity.
Qed.

(** The matcher does not look into what its continuation returns. *)
Lemma rmatch_map (R R' : Type) (f : R -> R') (r : regex) :
  forall (prev : option ascii) (s : str)
         (k : option ascii -> str -> option R)
         (k' : option ascii -> str -> option R'),
    (forall p' s', k' p' s' = option_map f (k p' s')) ->
    rmatch fl r prev s k' = option_map f (rmatch fl r prev s k).
Proof.
  induction r as [|its| | |a IHa b IHb|a IHa b IHb|a IHa|a IHa];
    intros prev s k k' Hk.
  - apply Hk.
  - destruct s as [|c s]; [reflexivity|]. cbn [rmatch].
    destruct (sym_ok fl its c); [apply Hk | reflexivity].
  - cbn [rmatch]. destruct (at_bol fl prev); [apply Hk | reflexivity].
  - cbn [rmatch]. destruct (xorb _ _); [apply Hk | reflexivity].
  - cbn [rmatch]. apply IHa. intros p' s'. apply IHb. exact Hk.
  - cbn [rmatch]. rewrite (IHa prev s k k' Hk), (IHb prev s k k' Hk).
    destruct (rmatch fl a prev s k); reflexivity.
  - cbn [rmatch]. generalize (List.length s). intros n. revert prev s.
    induction n as [|n IHn]; intros prev s; [apply Hk|].
    rewrite (IHa prev s
               (fun p' s' =>
                  if (List.length s' <? List.length s)%nat
                  then (fix loop (n : nat) (p : option ascii) (s0 : str) {struct n}
                          : option R :=
                          match n with
                          | O => k p s0
                          | S n' =>
                              match rmatch fl a p s0
                                      (fun p' s' =>
                                         if (List.length s' <? List.length s0)%nat
                                         then loop n' p' s' else None) with
                              | Some x => Some x
                              | None => k p s0
                              end
                          end) n p' s'
                  else None)).
    + rewrite Hk.
      match goal with
      | |- context [match option_map f ?m with _ => _ end] => destruct m
      end; reflexivity.
    + intros p' s'.
      destruct (List.length s' <? List.length s)%nat; [apply IHn | reflexivity].
  - cbn [rmatch]. rewrite (IHa prev s k k' Hk), Hk.
    destruct (rmatch fl a prev s k); reflexivity.
Qed.

Lemma re_match_lower (r : regex) (s : str) :
  re_match fl r (lower s) = re_match fl r s.
Proof.
  unfold re_match, match_here.
  assert (rmatch fl r None (lower s) (fun p' s' => Some (p', s'))
          = rmatch fl r None s
              (fun p' s' => Some (option_map lower_char p', lower s'))) as E1.
  { apply (@rmatch_lower _ r None s
             (fun p' s' => Some (option_map lower_char p', lower s'))
             (fun p' s' => Some (p', s'))).
    reflexivity. }
  assert (rmatch fl r None s
            (fun p' s' => Some (option_map lower_char p', lower s'))
          = option_map
              (fun x : option ascii * str =>
                 (option_map lower_char (fst x), lower (snd x)))
              (rmatch fl r None s (fun p' s' => Some (p', s')))) as E2.
  { apply rmatch_map. reflexivity. }
  rewrite E1, E2.
  destruct (rmatch fl r None s (fun p' s' => Some (p', s'))); reflexivity.
Qed.

End BoundaryCase.

Section BoundaryProperties.

(** X20: whether a sentence of characters below U+0100 opens a clause
    does not depend on the case of its letters.  (Not so beyond that
    range: under [re.IGNORECASE] U+0130 is accepted for [i], and its
    lower-case form is not.) *)
Theorem clause_start_ignores_letter_case : forall a b : str,
  lower a = lower b -> _is_clause_start a = _is_clause_start b.
Proof.
  assert (forall s, _is_clause_start (lower s) = _is_clause_start s) as H.
  { intros s. unfold _is_clause_start.
    generalize Segmentation.compiled_patterns. intros rs.
    induction rs as [|r rs IH]; [reflexivity|].
    cbn [existsb]. rewrite IH, re_match_lower by reflexivity. reflexivity. }
  intros a b E. rewrite <- (H a), <- (H b), E. reflexivity.
Qed.

Lemma clause_start_ignores_letter_case_witness :
  lower (py "WHEREAS the parties") = lower (py "Whereas THE parties")
  /\ _is_clause_start (py "WHEREAS the parties")
     = _is_clause_start (py "Whereas THE parties").
Proof.
  split; [reflexivity|].
  apply (@clause_start_ignores_letter_case
           (py "WHEREAS the parties") (py "Whereas THE parties")).
  reflexivity.
Defined.

End BoundaryProperties.

Section Records.

(** X21: every assessment, computed or mock, has the colour of its
    level and the explanation made from its level and its risk
    factors. *)
Theorem assessments_are_consistent :
  forall (o : outcome) (g : rng) (clauses : list clause),
    Forall (fun a =>
              color a = level_color (risk_level a)
              /\ explanation a
                 = _generate_risk_explanation (risk_level a) (risk_factors a))
           (fst (calculate_risk_scores o g clauses)).
Proof.
  intros o g clauses. destruct o; cbn [calculate_risk_scores fst].
  - unfold _calculate_risks. apply Forall_map, Forall_forall. intros c _.
    unfold assess.
    destruct (level_and_color_cases (_analyze_clause_risk (text c)))
      as [[_ ->]|[[_ ->]|[_ ->]]]; split; reflexivity.
  - revert g. induction clauses as [|c rest IH]; intros g; [constructor|].
    rewrite mock_cons. cbv zeta. cbn [fst]. constructor; [|apply IH].
    cbn [color risk_level explanation risk_factors].
    destruct (mock_level_cases (0.1 + (0.9 - 0.1) * g 0%nat))
      as [[_ ->]|[[_ ->]|[_ ->]]]; split; reflexivity.
Qed.

End Records.
